(** * gdg: a Deep Zoom Image (DZI) tile pyramid generator

  A shallow embedding of [gdg.go] and the properties of its geometry
  ([GetMaxLevel], [GetLevelGrids], [ComputeTileRect]) and of its pyramid
  walker ([SaveTile], [Generate]).

  The Go code computes with [uint] (machine words that wrap around), with
  [int] (the same words read in two's complement) and with [float64].
  The three are modelled as they are: words as [Z] with the reduction
  modulo [2 ^ uint_bits] written out, and [float64] as the IEEE 754
  binary64 numbers of [SpecFloat], rounded to nearest even.

  [Generate] starts one goroutine per tile and waits for them on a
  [sync.WaitGroup].  The goroutines are the list of calls started; the
  wait group is its counter, with the panic of [Add] and [Done] on a
  negative counter and [Wait] returning at zero; when the goroutines get
  to their [Done] is left to a scheduler the properties hold for
  whatever it does. *)

From Stdlib Require Import ZArith Lia List Bool String Ascii.
From Stdlib Require Import Floats.SpecFloat.
From Stdlib Require Import Decimal DecimalString DecimalN.
Import ListNotations.

Local Open Scope string_scope.
Local Open Scope Z_scope.

(** ** IEEE 754 binary64 *)

Module F64.

Definition prec : Z := 53.
Definition emax : Z := 1024.

Definition float64 : Set := spec_float.

Definition add : float64 -> float64 -> float64 := SFadd prec emax.
Definition sub : float64 -> float64 -> float64 := SFsub prec emax.
Definition mul : float64 -> float64 -> float64 := SFmul prec emax.
Definition div : float64 -> float64 -> float64 := SFdiv prec emax.
Definition eqb : float64 -> float64 -> bool := SFeqb.
Definition ltb : float64 -> float64 -> bool := SFltb.
Definition leb : float64 -> float64 -> bool := SFleb.

(** [float64(n)] for an integer [n]: the nearest binary64 number, ties to
    even. *)
Definition of_Z (n : Z) : float64 := binary_normalize prec emax n 0 false.

(** The number with the given 64-bit pattern (sign, 11 exponent bits, 52
    fraction bits); used to write the constants of package [math]. *)
Definition of_bits (b : Z) : float64 :=
  let s := Z.testbit b 63 in
  let E := Z.land (Z.shiftr b 52) 2047 in
  let M := Z.land b (2 ^ 52 - 1) in
  if E =? 0 then
    match M with
    | Zpos m => S754_finite s m (-1074)
    | _ => S754_zero s
    end
  else if E =? 2047 then
    (if M =? 0 then S754_infinity s else S754_nan)
  else
    match M + 2 ^ 52 with
    | Zpos m => S754_finite s m (E - 1075)
    | _ => S754_nan
    end.

Definition zero : float64 := S754_zero false.

(** The mantissa and the exponent of [float64(n)] when [n] has at most 53
    bits: [n] shifted left to 53 bits. *)
Definition mant (n : Z) : Z := n * 2 ^ (52 - Z.log2 n).
Definition expo (n : Z) : Z := Z.log2 n - 52.

(** The integer a conversion [uint(x)] or [int(x)] looks for: [x] without
    its fraction, [m * 2 ^ e] rounded toward zero.  NaN and the infinities
    have none. *)
Definition trunc_scaled (m e : Z) : Z :=
  if 0 <=? e then m * 2 ^ e else Z.quot m (2 ^ (- e)).

Definition to_Z (x : float64) : option Z :=
  match x with
  | S754_zero _ => Some 0
  | S754_finite s m e => Some (trunc_scaled (cond_Zopp s (Zpos m)) e)
  | _ => None
  end.

End F64.

Abbreviation float64 := F64.float64.

(** ** Package [math] of the Go standard library

  [Max], [Ceil] and [Frexp] are exact operations and are defined by what
  they return.  [Log2] is not: away from the powers of two its last bits
  are those of the platform's [Log] (assembly on some targets, a fused
  multiply-add on others), so the repository's functions take it from the
  [Platform] below, and [math.Log2] here is the portable version of the
  library, one instance among others. *)

Module math.

Import F64.

Definition IsNaN (x : float64) : bool :=
  match x with S754_nan => true | _ => false end.

(** [math.IsInf(x, 1)] *)
Definition IsPosInf (x : float64) : bool :=
  match x with S754_infinity false => true | _ => false end.

Definition Signbit (x : float64) : bool :=
  match x with
  | S754_zero s | S754_infinity s | S754_finite s _ _ => s
  | S754_nan => false
  end.

(** [math.Max] with its special cases, in the order of the library. *)
Definition Max (x y : float64) : float64 :=
  if IsPosInf x || IsPosInf y then S754_infinity false
  else if IsNaN x || IsNaN y then S754_nan
  else if eqb x zero && eqb x y then (if Signbit x then y else x)
  else if ltb y x then x
  else y.

(** The least integer not below [m * 2 ^ e]. *)
Definition ceil_scaled (m e : Z) : Z :=
  if 0 <=? e then m * 2 ^ e else - ((- m) / 2 ^ (- e)).

(** [math.Ceil]: the least integer value not below [x]; zeros, infinities
    and NaN are returned as they are, and a negative fraction above [-1]
    gives [-0]. *)
Definition Ceil (x : float64) : float64 :=
  match x with
  | S754_finite s m e =>
      if 0 <=? e then x
      else
        let c := ceil_scaled (cond_Zopp s (Zpos m)) e in
        if c =? 0 then S754_zero s else of_Z c
  | _ => x
  end.

(** [math.Frexp] on finite non-zero numbers: [x = frac * 2 ^ exp] with
    [frac] in [[1/2, 1)]; zeros, infinities and NaN come back with
    exponent 0. *)
Definition Frexp (x : float64) : float64 * Z :=
  match x with
  | S754_finite _ _ _ => SFfrexp prec emax x
  | _ => (x, 0)
  end.

(** Constants, by their bit patterns. *)
Definition one : float64 := of_Z 1.
Definition two : float64 := of_Z 2.
Definition half : float64 := of_bits 0x3FE0000000000000.
Definition Sqrt2_2 : float64 := of_bits 0x3FE6A09E667F3BCD. (* Sqrt2/2 *)
Definition invLn2 : float64 := of_bits 0x3FF71547652B82FE.  (* 1/Ln2 *)
Definition Ln2Hi : float64 := of_bits 0x3FE62E42FEE00000.
Definition Ln2Lo : float64 := of_bits 0x3DEA39EF35793C76.
Definition L1 : float64 := of_bits 0x3FE5555555555593.
Definition L2 : float64 := of_bits 0x3FD999999997FA04.
Definition L3 : float64 := of_bits 0x3FD2492494229359.
Definition L4 : float64 := of_bits 0x3FCC71C51D8E78AF.
Definition L5 : float64 := of_bits 0x3FC7466496CB03DE.
Definition L6 : float64 := of_bits 0x3FC39A09D078C69F.
Definition L7 : float64 := of_bits 0x3FC2F112DF3E5244.

(** [math.Log], portable version: argument reduction to
    [[sqrt 2 / 2, sqrt 2)] and a polynomial in [s = f / (2 + f)]. *)
Definition Log (x : float64) : float64 :=
  if IsNaN x || IsPosInf x then x
  else if ltb x zero then S754_nan
  else if eqb x zero then S754_infinity true
  else
    let '(f1, ki) := Frexp x in
    let '(f1, ki) :=
      if ltb f1 Sqrt2_2 then (mul f1 two, ki - 1) else (f1, ki) in
    let f := sub f1 one in
    let k := of_Z ki in
    let s := div f (add two f) in
    let s2 := mul s s in
    let s4 := mul s2 s2 in
    let t1 := mul s2 (add L1 (mul s4 (add L3 (mul s4 (add L5 (mul s4 L7)))))) in
    let t2 := mul s4 (add L2 (mul s4 (add L4 (mul s4 L6)))) in
    let R := add t1 t2 in
    let hfsq := mul (mul half f) f in
    sub (mul k Ln2Hi) (sub (sub hfsq (add (mul s (add hfsq R)) (mul k Ln2Lo))) f).

(** [math.Log2]: exact on the powers of two, [Log(frac)*(1/Ln2) + exp]
    elsewhere. *)
Definition Log2 (x : float64) : float64 :=
  let '(frac, exp) := Frexp x in
  if eqb frac half then of_Z (exp - 1)
  else add (mul (Log frac) invLn2) (of_Z exp).

End math.

(** ** Package [image]: points and rectangles with [int] coordinates *)

Module image.

Record Point : Set := { X : Z; Y : Z }.

Record Rectangle : Set := { Min : Point; Max : Point }.

(** The zero value a named result starts from. *)
Definition ZR : Rectangle :=
  {| Min := {| X := 0; Y := 0 |}; Max := {| X := 0; Y := 0 |} |}.

Definition Dx (r : Rectangle) : Z := X (Max r) - X (Min r).
Definition Dy (r : Rectangle) : Z := Y (Max r) - Y (Min r).

End image.

(** ** The platform

  What the language leaves to the implementation: the size of [uint] and
  [int] (32 or 64 bits), the word a conversion [uint(x)] yields when the
  [float64] [x] is NaN, infinite or out of range, the last bits of
  [math.Log2], and the pace of the goroutines.  [Log2_pow2] is the one
  thing the library promises about the logarithm: a power of two has an
  exact one.

  [scheduler at r] is the runtime's choice each time the function that
  started the goroutines comes to a call on their wait group, [wg.Add]
  at level [l] for [at = Some l] and [wg.Wait] for [at = None]: of the [r]
  goroutines then running, the number that have reached their deferred
  [wg.Done()] since the call before.  No more than [r] can have; a larger
  answer counts as [r]. *)

Class Platform : Type := {
uint_bits : Z;
uint_bits_cases : uint_bits = 32 \/ uint_bits = 64;
uint_of_unrepresentable : float64 -> Z;
Log2 : float64 -> float64;
Log2_pow2 : forall k : Z, 0 <= k <= 64 ->
  Log2 (S754_finite false (2 ^ 52) (k - 52)) = F64.of_Z k;
scheduler : option Z -> nat -> nat
}.

(** ** The packages the repository draws and stores images with

    [image.NRGBA] buffers, [imaging.Crop], [imaging.Thumbnail] with the
    [imaging.Box] filter, and the two encoders writing into a
    [bytes.Buffer]: what they compute is not the repository's concern, so
    they are an interface. *)

Class Imaging : Type := {
  NRGBA : Type;
  Crop : NRGBA -> image.Rectangle -> NRGBA;
  Thumbnail : NRGBA -> Z -> Z -> NRGBA;
  jpeg_Encode : NRGBA -> list Byte.byte * option string;
  png_Encode : NRGBA -> list Byte.byte * option string
}.

(** ** Package [sync] of the Go standard library: [WaitGroup]

    How a call ends: it returns, it panics, or it never gets past a
    [wg.Wait()]. *)

Inductive Exit (A : Type) : Type :=
| Returns (a : A)
| Panics (msg : string)
| Blocks.

Arguments Returns {A} a.
Arguments Panics {A} msg.
Arguments Blocks {A}.

Definition bind {A B : Type} (e : Exit A) (f : A -> Exit B) : Exit B :=
  match e with
  | Returns a => f a
  | Panics msg => Panics msg
  | Blocks => Blocks
  end.

Notation "x <- e ;; f" := (bind e (fun x => f))
  (at level 61, e at next level, right associativity).

Definition exit_map {A B : Type} (f : A -> B) (e : Exit A) : Exit B :=
  x <- e ;; Returns (f x).

(** The counter of a wait group is an [int32]: what [Add] is given is added
    to it in 32 bits. *)
Definition int32 (z : Z) : Z := (z + 2 ^ 31) mod 2 ^ 32 - 2 ^ 31.

(** [wg.Add(delta)] on a wait group whose counter is [counter]: the new
    counter, or the panic of a counter gone negative.  ([Add] has a second
    panic, for a call that races with [Wait]; [Generate] calls [Wait] once,
    after its last [Add].) *)
Definition wg_Add (counter delta : Z) : Exit Z :=
  let v := int32 (counter + delta) in
  if v <? 0 then Panics "sync: negative WaitGroup counter" else Returns v.

(** [n] goroutines come to their [wg.Done()], that is [wg.Add(-1)], one
    after the other. *)
Fixpoint wg_Done (n : nat) (counter : Z) : Exit Z :=
  match n with
  | O => Returns counter
  | S n' => c <- wg_Add counter (-1) ;; wg_Done n' c
  end.

(** [wg.Wait()] with [r] goroutines running: it returns at once on a
    counter of zero and otherwise when [counter] of them have called
    [Done]; with fewer than [counter] running it never returns.  The result
    is the number of goroutines running when it returns; what these do
    later, a [Done] on a counter of zero among it, is after the call. *)
Definition wg_Wait (counter : Z) (r : nat) : Exit nat :=
  if counter <=? Z.of_nat r then Returns (r - Z.to_nat counter)%nat else Blocks.

(** ** The repository: package [gdg] *)

Definition ImageFormat : Set := string.

Definition JPEG : ImageFormat := "jpeg"%string.
Definition PNG : ImageFormat := "png"%string.

(** [error]: [None] is [nil]. *)
Definition error : Set := option string.

(** [io.Reader] over a buffer: the bytes it will deliver. *)
Definition Reader : Set := list Byte.byte.

(** [Saver] is the interface with the one method [SaveFile]. *)
Record Saver : Set := { SaveFile : string -> Reader -> error }.

(** [Option] represents general DZI options. *)
Record Option : Set := {
DirPath : string;
OptSaver : Saver;
Format : ImageFormat;
Overlap : Z;
TileSize : Z;
Width : Z;
Height : Z
}.

Section Geometry.

Context {P : Platform}.

(** *** [uint] and [int] *)

Definition modulus : Z := 2 ^ uint_bits.

(** An arithmetic result as the [uint] it is stored in. *)
Definition wrap (z : Z) : Z := z mod modulus.

Definition uadd (a b : Z) : Z := wrap (a + b).
Definition usub (a b : Z) : Z := wrap (a - b).
Definition umul (a b : Z) : Z := wrap (a * b).

(** [int(u)] for a [uint] [u]: the same word in two's complement. *)
Definition int (u : Z) : Z :=
  if u <? 2 ^ (uint_bits - 1) then u else u - modulus.

(** [uint(x)] for a [float64] [x]: the fraction is dropped; a value [uint]
    cannot hold gives a word of the platform's choice. *)
Definition uint (x : float64) : Z :=
  match F64.to_Z x with
  | Some n =>
      if (0 <=? n) && (n <? modulus) then n
      else wrap (uint_of_unrepresentable x)
  | None => wrap (uint_of_unrepresentable x)
  end.

(** *** Geometry *)

(** [GetMaxLevel] computes and returns the maximum level of DZI files
    based on given width and height. *)
Definition GetMaxLevel (width height : Z) : Z :=
  uint (math.Ceil (Log2 (math.Max (F64.of_Z width) (F64.of_Z height)))).

(** [GetLevelGrids] returns columns and rows number of current level,
    tile size, width and height. *)
Definition GetLevelGrids (level width height tileSize : Z) : Z * Z :=
  (uint (math.Ceil (F64.div (F64.of_Z width) (F64.of_Z tileSize))),
   uint (math.Ceil (F64.div (F64.of_Z height) (F64.of_Z tileSize)))).

(** One axis of [ComputeTileRect]: the two [if] statements of the source
    are the same code on ([col], [maxCol], [Width]) and on ([row],
    [maxRow], [Height]).  The named result starts at zero, so a branch
    that does not assign [Min] leaves it 0. *)
Definition tile_span (tileSize overlap extent i maxI : Z) : Z * Z :=
  if i =? 0 then
    (0, int (uadd tileSize overlap))
  else
    (int (usub (umul i tileSize) overlap),
     if i =? usub maxI 1 then int extent
     else int (uadd (umul (uadd i 1) tileSize) overlap)).

(** [ComputeTileRect] computes and returns corresponding rectangle based
    on given option, column and row. *)
Definition ComputeTileRect (opt : Option) (col row maxCol maxRow : Z)
  : image.Rectangle :=
  let '(x0, x1) := tile_span (TileSize opt) (Overlap opt) (Width opt) col maxCol in
  let '(y0, y1) := tile_span (TileSize opt) (Overlap opt) (Height opt) row maxRow in
  {| image.Min := {| image.X := x0; image.Y := y0 |};
     image.Max := {| image.X := x1; image.Y := y1 |} |}.

End Geometry.


Section Pyramid.

Context {P : Platform} {I : Imaging}.

(** [%d] of [fmt.Sprintf] on a [uint]. *)
Definition dec (n : Z) : string := NilZero.string_of_uint (N.to_uint (Z.to_N n)).

(** [fmt.Sprintf("%s/%d/%d_%d.%s", dirPath, level, col, row, format)] *)
Definition tile_path (dirPath : string) (level col row : Z) (format : ImageFormat)
  : string :=
  dirPath ++ "/" ++ dec level ++ "/" ++ dec col ++ "_" ++ dec row ++ "." ++ format.

(** [SaveTile] saves tile to given path based on level, column and row.
    Its result is the error it returns together with the calls it made to
    [saver.SaveFile], each with the path and the bytes of the buffer; its
    deferred [wg.Done()] is [wg_Done] above, run when the scheduler says.
    The [switch] has no default: another format leaves [err] nil and the
    buffer empty. *)
Definition SaveTile (dirPath : string) (saver : Saver) (level col row : Z)
  (format : ImageFormat) (m : NRGBA) : list (string * Reader) * error :=
  let imgPath := tile_path dirPath level col row format in
  let '(buffer, err) :=
    if String.eqb format JPEG then jpeg_Encode m
    else if String.eqb format PNG then png_Encode m
    else ([], None) in
  match err with
  | Some e => ([], Some e)
  | None =>
      match SaveFile saver imgPath buffer with
      | Some e => ([(imgPath, buffer)], Some e)
      | None => ([(imgPath, buffer)], None)
      end
  end.

(** A [go SaveTile(...)] statement: the arguments are evaluated by the
    walker, the call runs on its own and its result is dropped. *)
Record Task : Type := {
  t_dirPath : string;
  t_saver : Saver;
  t_level : Z;
  t_col : Z;
  t_row : Z;
  t_format : ImageFormat;
  t_m : NRGBA
}.

Definition run (t : Task) : list (string * Reader) * error :=
  SaveTile (t_dirPath t) (t_saver t) (t_level t) (t_col t) (t_row t) (t_format t) (t_m t).

(** The values of [for i = 0; i < n; i++]. *)
Definition upto (n : Z) : list Z := map Z.of_nat (seq 0 (Z.to_nat n)).

(** The two inner loops of [Generate] at one level: one task per cell,
    column by column. *)
Definition level_tasks (level : Z) (opt : Option) (tm : NRGBA) (cols rows : Z)
  : list Task :=
  flat_map
    (fun col =>
       map
         (fun row =>
            {| t_dirPath := DirPath opt; t_saver := OptSaver opt;
               t_level := level; t_col := col; t_row := row;
               t_format := Format opt;
               t_m := Crop tm (ComputeTileRect opt col row cols rows) |})
         (upto rows))
    (upto cols).

(** [uint(math.Ceil(float64(n) / 2))] *)
Definition halve (n : Z) : Z :=
  uint (math.Ceil (F64.div (F64.of_Z n) (F64.of_Z 2))).

(** The variables of [Generate]: the level, the caller's [Option] (the
    function holds a pointer and writes through it), the working image and
    the counter of the [sync.WaitGroup]; with them the goroutines started so
    far, oldest first, the number of them that have not come to their
    [wg.Done()] yet, and the sum of the arguments [wg.Add] has been called
    with. *)
Record Walker : Type := {
  level : Z;
  opt : Option;
  tm : NRGBA;
  wg : Z;
  tasks : list Task;
  running : nat;
  raised : Z
}.

Definition with_size (o : Option) (width height : Z) : Option :=
  {| DirPath := DirPath o; OptSaver := OptSaver o; Format := Format o;
     Overlap := Overlap o; TileSize := TileSize o;
     Width := width; Height := height |}.

(** The body of the loop up to its [if level == 0].  The goroutines of
    the levels above that the scheduler lets come to their [wg.Done()] do
    so first; then [wg.Add] is called with the size of the grid as an
    [int], the tasks of the grid are started, and the option and the
    working image are replaced by those of the next level. *)
Definition level_body (st : Walker) : Exit Walker :=
  let o := opt st in
  let '(cols, rows) := GetLevelGrids (level st) (Width o) (Height o) (TileSize o) in
  let n := Nat.min (scheduler (Some (level st)) (running st)) (running st) in
  c <- wg_Done n (wg st) ;;
  c' <- wg_Add c (int (umul cols rows)) ;;
  let go := level_tasks (level st) o (tm st) cols rows in
  let o' := with_size o (halve (Width o)) (halve (Height o)) in
  Returns
    {| level := level st;
       opt := o';
       tm := Thumbnail (tm st) (int (Width o')) (int (Height o'));
       wg := c';
       tasks := tasks st ++ go;
       running := (running st - n + List.length go)%nat;
       raised := raised st + int (umul cols rows) |}.

Definition with_level (st : Walker) (l : Z) : Walker :=
  {| level := l; opt := opt st; tm := tm st; wg := wg st; tasks := tasks st;
     running := running st; raised := raised st |}.

(** [for ; level >= 0; level-- { ...; if level == 0 { break } }], one
    iteration per unit of fuel; [None] when the fuel does not reach the end
    of the loop. *)
Fixpoint walk (fuel : nat) (st : Walker) : option (Exit Walker) :=
  match fuel with
  | O => None
  | S fuel' =>
      if 0 <=? level st then
        match level_body st with
        | Returns st' =>
            if level st' =? 0 then Some (Returns st')
            else walk fuel' (with_level st' (usub (level st') 1))
        | Panics msg => Some (Panics msg)
        | Blocks => Some Blocks
        end
      else Some (Returns st)
  end.

(** What a call of [Generate] leaves behind when it returns: the error
    returned, the caller's [Option], the sum of the arguments of [wg.Add],
    the tasks started, and the number of them still running. *)
Record Outcome : Type := {
  returned : error;
  opt_after : Option;
  added : Z;
  started : list Task;
  unfinished : nat
}.

(** [Generate] generates DZI files of given image and option.  After the
    loop, [wg.Wait()]: the goroutines the scheduler lets come to their
    [wg.Done()] before the call do so, and the call returns once the
    counter is at zero.  The result is [None] while the loop has passes
    left after [fuel] of them. *)
Definition Generate (fuel : nat) (m : NRGBA) (o : Option) : option (Exit Outcome) :=
  let st0 :=
    {| level := GetMaxLevel (Width o) (Height o); opt := o; tm := m;
       wg := 0; tasks := []; running := 0; raised := 0 |} in
  match walk fuel st0 with
  | Some e =>
      Some (st <- e ;;
            let n := Nat.min (scheduler None (running st)) (running st) in
            c <- wg_Done n (wg st) ;;
            r <- wg_Wait c (running st - n) ;;
            Returns {| returned := None; opt_after := opt st; added := raised st;
                       started := tasks st; unfinished := r |})
  | None => None
  end.

(** *** Notions the properties are stated with *)

(** The ceiling of [a / b] on integers. *)
Definition cdiv (a b : Z) : Z := (a + b - 1) / b.

(** A positive [uint] that [float64] holds exactly. *)
Definition exact_uint (n : Z) : Prop := 0 < n < 2 ^ 53 /\ n < modulus.

(** One level transition on the dimensions. *)
Definition downsample (wh : Z * Z) : Z * Z := (halve (fst wh), halve (snd wh)).

(** One level transition on the walker's option and image. *)
Definition transition (o : Option) (m : NRGBA) : Option * NRGBA :=
  let o2 := with_size o (halve (Width o)) (halve (Height o)) in
  (o2, Thumbnail m (int (Width o2)) (int (Height o2))).

(** The option and the working image the walker holds after [n] levels. *)
Fixpoint descend (n : nat) (o : Option) (m : NRGBA) : Option * NRGBA :=
  match n with
  | O => (o, m)
  | S n' => let '(o1, m1) := descend n' o m in transition o1 m1
  end.

(** The tasks of the level reached after [n] transitions from level [top]. *)
Definition tasks_at (top : Z) (o : Option) (m : NRGBA) (n : nat) : list Task :=
  let '(o1, m1) := descend n o m in
  let '(cols, rows) :=
    GetLevelGrids (top - Z.of_nat n) (Width o1) (Height o1) (TileSize o1) in
  level_tasks (top - Z.of_nat n) o1 m1 cols rows.

(** The core of a tile along one axis: its span without the overlap margins
    it shares with its neighbours, the lower one unless the tile is the
    first, the upper one unless it is the last. *)
Definition core_span (tileSize overlap extent i maxI : Z) : Z * Z :=
  let '(lo, hi) := tile_span tileSize overlap extent i maxI in
  (if i =? 0 then lo else lo + overlap,
   if i =? maxI - 1 then hi else hi - overlap).

Definition core_rect (o : Option) (col row maxCol maxRow : Z) : image.Rectangle :=
  let '(x0, x1) := core_span (TileSize o) (Overlap o) (Width o) col maxCol in
  let '(y0, y1) := core_span (TileSize o) (Overlap o) (Height o) row maxRow in
  {| image.Min := {| image.X := x0; image.Y := y0 |};
     image.Max := {| image.X := x1; image.Y := y1 |} |}.

Definition area (r : image.Rectangle) : Z := image.Dx r * image.Dy r.

Definition sumZ (l : list Z) : Z := fold_right Z.add 0 l.

(** The total area of the cores over the grid of a level. *)
Definition core_area (o : Option) : Z :=
  let '(cols, rows) := GetLevelGrids 0 (Width o) (Height o) (TileSize o) in
  sumZ (flat_map
          (fun col => map (fun row => area (core_rect o col row cols rows)) (upto rows))
          (upto cols)).

(** A level the arithmetic of [ComputeTileRect] does not wrap on: positive
    dimensions and tile size that [float64] holds exactly, an overlap of at
    most a tile, and room below the sign bit of [int] for one tile and one
    overlap beyond the dimensions. *)
Definition plain_level (o : Option) : Prop :=
  exact_uint (Width o) /\ exact_uint (Height o)
  /\ 0 < TileSize o < 2 ^ 53
  /\ 0 <= Overlap o <= TileSize o
  /\ Width o + 2 * TileSize o <= 2 ^ (uint_bits - 1)
  /\ Height o + 2 * TileSize o <= 2 ^ (uint_bits - 1).

(** The pixel [(x, y)] lies in the rectangle [r]: [Min] is inside, [Max]
    outside. *)
Definition inside (r : image.Rectangle) (x y : Z) : Prop :=
  image.X (image.Min r) <= x < image.X (image.Max r)
  /\ image.Y (image.Min r) <= y < image.Y (image.Max r).

(** The level, column and row of a task. *)
Definition cell (t : Task) : Z * Z * Z := (t_level t, t_col t, t_row t).

(** The cells of a grid at a level, column by column. *)
Definition grid_cells (l cols rows : Z) : list (Z * Z * Z) :=
  flat_map (fun col => map (fun row => (l, col, row)) (upto rows)) (upto cols).

(** What the loop keeps between two levels when the goroutines fit the
    counter of the wait group: the counter is the number of goroutines
    running, and that number and the grids of the levels still to come,
    none larger than the present one, stay below [2^31]. *)
Definition steady (st : Walker) : Prop :=
  exact_uint (Width (opt st)) /\ exact_uint (Height (opt st))
  /\ 0 < TileSize (opt st) < 2 ^ 53
  /\ 0 <= level st
  /\ wg st = Z.of_nat (running st)
  /\ Z.of_nat (running st)
     + (level st + 1)
       * (cdiv (Width (opt st)) (TileSize (opt st))
          * cdiv (Height (opt st)) (TileSize (opt st))) < 2 ^ 31.


(** Strings of decimal digits, and the characters that are none. *)
Definition digits_only (s : string) : Prop :=
  exists d, NilEmpty.uint_of_string s = Some d.

Definition separator (c : ascii) : Prop :=
  forall d, uint_of_char c (Some d) = None.

(** [math.Log2] is as good as the binade allows at [x]: on a power of two
    nothing is asked (the library is exact there), elsewhere its result is a
    valid number above [exp - 1] and not above [exp], where [x] is
    [frac * 2 ^ exp]. *)
Definition Log2_accurate_at (x : float64) : bool :=
  let '(frac, exp) := math.Frexp x in
  F64.eqb frac math.half
  || (valid_binary F64.prec F64.emax (Log2 x)
      && F64.ltb (F64.of_Z (exp - 1)) (Log2 x)
      && F64.leb (Log2 x) (F64.of_Z exp)).

End Pyramid.

(** ** Instances to compute with *)

(** The portable library on a 64-bit target.  A [float64] that [uint]
    cannot hold converts to [2^63] here, and every goroutine has come to
    its [wg.Done()] by the next call on the wait group. *)
#[export] Instance go64 : Platform := {|
  uint_bits := 64;
  uint_bits_cases := or_intror eq_refl;
  uint_of_unrepresentable := fun _ => 2 ^ 63;
  Log2 := math.Log2;
  Log2_pow2 := fun k Hk =>
    ltac:(unfold math.Log2, math.Frexp, SFfrexp; simpl;
          replace (k - 52 + F64.prec - 1) with k by (unfold F64.prec; lia);
          reflexivity);
  scheduler := fun _ r => r
|}.

(** The same library and the same scheduler on a 32-bit target. *)
Definition go32 : Platform := {|
  uint_bits := 32;
  uint_bits_cases := or_introl eq_refl;
  uint_of_unrepresentable := fun _ => 2 ^ 31;
  Log2 := math.Log2;
  Log2_pow2 := Log2_pow2 (Platform := go64);
  scheduler := fun _ r => r
|}.

(** Images reduced to their bounds: [Crop] intersects the rectangle with
    the bounds and moves it to the origin, [Thumbnail] gives the size asked
    for (nothing when a side is not positive), and the encoders write one
    byte and do not fail. *)
Definition bounds_Crop (b r : image.Rectangle) : image.Rectangle :=
  let x0 := Z.max (image.X (image.Min b)) (image.X (image.Min r)) in
  let y0 := Z.max (image.Y (image.Min b)) (image.Y (image.Min r)) in
  let x1 := Z.min (image.X (image.Max b)) (image.X (image.Max r)) in
  let y1 := Z.min (image.Y (image.Max b)) (image.Y (image.Max r)) in
  if (x0 <? x1) && (y0 <? y1) then
    {| image.Min := {| image.X := 0; image.Y := 0 |};
       image.Max := {| image.X := x1 - x0; image.Y := y1 - y0 |} |}
  else image.ZR.

Definition bounds_Thumbnail (b : image.Rectangle) (w h : Z) : image.Rectangle :=
  if (0 <? w) && (0 <? h) then
    {| image.Min := {| image.X := 0; image.Y := 0 |};
       image.Max := {| image.X := w; image.Y := h |} |}
  else image.ZR.

#[export] Instance bounds_only : Imaging := {|
  NRGBA := image.Rectangle;
  Crop := bounds_Crop;
  Thumbnail := bounds_Thumbnail;
  jpeg_Encode := fun _ => ([Byte.xff], None);
  png_Encode := fun _ => ([Byte.x89], None)
|}.

(** A picture of [w] by [h] pixels. *)
Definition picture (w h : Z) : image.Rectangle :=
  {| image.Min := {| image.X := 0; image.Y := 0 |};
     image.Max := {| image.X := w; image.Y := h |} |}.

(** A saver that stores everything, and one that stores nothing. *)
Definition accepting : Saver := {| SaveFile := fun _ _ => None |}.
Definition refusing : Saver := {| SaveFile := fun _ _ => Some "no space left on device" |}.

Definition config (format : ImageFormat) (saver : Saver)
  (overlap tileSize width height : Z) : Option :=
  {| DirPath := "out"; OptSaver := saver; Format := format;
     Overlap := overlap; TileSize := tileSize; Width := width; Height := height |}.
(** * Facts on binary64 arithmetic

    What the conversions [float64(n)], the division and [math.Ceil] give on
    integers of at most 53 bits, from the definitions of [SpecFloat]. *)

Local Open Scope list_scope.

Section Digits.

(** [digits2_pos p] is the number of bits of [p]. *)
Lemma digits2_pos_bounds (p : positive) :
  2 ^ (Zpos (digits2_pos p) - 1) <= Zpos p < 2 ^ Zpos (digits2_pos p).
Proof.
  induction p as [p IH | p IH | ]; simpl digits2_pos.
  - rewrite Pos2Z.inj_succ.
    replace (Z.succ (Zpos (digits2_pos p)) - 1) with (Z.succ (Zpos (digits2_pos p) - 1)) by lia.
    rewrite !Z.pow_succ_r by lia. lia.
  - rewrite Pos2Z.inj_succ.
    replace (Z.succ (Zpos (digits2_pos p)) - 1) with (Z.succ (Zpos (digits2_pos p) - 1)) by lia.
    rewrite !Z.pow_succ_r by lia. lia.
  - simpl. lia.
Qed.

Lemma pow2_lt_mono_inv (a b : Z) : 0 <= b -> 2 ^ a < 2 ^ b -> a < b.
Proof.
  intros Hb H. destruct (Z_lt_le_dec a b) as [|Hle]; [assumption|].
  apply (Z.pow_le_mono_r 2) in Hle; lia.
Qed.

Lemma digits2_pos_unique (p : positive) (d : Z) :
  2 ^ (d - 1) <= Zpos p < 2 ^ d -> Zpos (digits2_pos p) = d.
Proof.
  intros [Hlo Hhi].
  pose proof (digits2_pos_bounds p) as [Blo Bhi].
  assert (0 < d).
  { destruct (Z_lt_le_dec 0 d) as [|Hd]; [assumption|].
    destruct (Z.eq_dec d 0) as [->|]; [simpl in Hhi; lia|].
    rewrite Z.pow_neg_r in Hhi by lia. lia. }
  assert (d - 1 < Zpos (digits2_pos p)) by (apply pow2_lt_mono_inv; lia).
  assert (Zpos (digits2_pos p) - 1 < d) by (apply pow2_lt_mono_inv; lia).
  lia.
Qed.

Lemma iter_xO (m d : positive) : Zpos (Pos.iter xO m d) = Zpos m * 2 ^ Zpos d.
Proof.
  induction d as [|d IH] using Pos.peano_ind.
  - simpl. lia.
  - rewrite Pos.iter_succ, Pos2Z.inj_succ, Z.pow_succ_r by lia.
    rewrite Pos2Z.inj_xO, IH. lia.
Qed.

End Digits.


Section Rounding.

Import F64.

Lemma fexp_normal (z : Z) : -1021 <= z -> fexp prec emax z = z - 53.
Proof. unfold fexp, emin, prec, emax. lia. Qed.

Lemma loc_of_shr_record_of_loc (m : Z) (l : location) :
  loc_of_shr_record (shr_record_of_loc m l) = l.
Proof. destruct l as [|[]]; reflexivity. Qed.

Lemma shr_m_of_loc (m : Z) (l : location) : shr_m (shr_record_of_loc m l) = m.
Proof. destruct l as [|[]]; reflexivity. Qed.

(** A 53-bit mantissa is not shifted, a 54-bit one loses its last bit. *)
Lemma shr_fexp_53 (m e : Z) (l : location) :
  Zdigits2 m = 53 -> -1074 <= e ->
  shr_fexp prec emax m e l = (shr_record_of_loc m l, e).
Proof.
  intros Hd He. unfold shr_fexp. rewrite Hd, fexp_normal by lia.
  replace (53 + e - 53 - e) with 0 by lia. reflexivity.
Qed.

Lemma shr_fexp_54 (m e : Z) (l : location) :
  Zdigits2 m = 54 -> -1075 <= e ->
  shr_fexp prec emax m e l = (shr_1 (shr_record_of_loc m l), e + 1).
Proof.
  intros Hd He. unfold shr_fexp. rewrite Hd, fexp_normal by lia.
  replace (54 + e - 53 - e) with 1 by lia. reflexivity.
Qed.

Lemma shr_m_shr_1 (r : shr_record) :
  0 <= shr_m r -> shr_m (shr_1 r) = Z.div2 (shr_m r).
Proof.
  destruct r as [m b c]. simpl shr_m. intros Hm.
  destruct m as [|p|p]; [reflexivity| |lia].
  destruct p; reflexivity.
Qed.

Lemma Zdigits2_53 (m : Z) : 2 ^ 52 <= m < 2 ^ 53 -> Zdigits2 m = 53.
Proof.
  intros H. destruct m as [|p|p]; try lia.
  simpl. apply digits2_pos_unique. exact H.
Qed.

Lemma Zdigits2_54 (m : Z) : 2 ^ 53 <= m < 2 ^ 54 -> Zdigits2 m = 54.
Proof.
  intros H. destruct m as [|p|p]; try lia.
  simpl. apply digits2_pos_unique. exact H.
Qed.

Lemma round_nearest_even_bounds (m : Z) (l : location) :
  m <= round_nearest_even m l <= m + 1.
Proof.
  destruct l as [|[]]; simpl; try lia. destruct (Z.even m); lia.
Qed.

(** The last step of [binary_round_aux]: a rounded mantissa in
    [[2^52, 2^53]] is stored as it is, [2^53] as [2^52] one exponent up. *)
Lemma round_finish (s : bool) (m1 e : Z) :
  2 ^ 52 <= m1 <= 2 ^ 53 -> -1074 <= e <= 970 ->
  exists (mf : positive) (ef : Z),
    (let '(mrs, e') := shr_fexp prec emax m1 e loc_Exact in
     match shr_m mrs with
     | Z0 => S754_zero s
     | Zpos m => if e' <=? emax - prec then S754_finite s m e' else S754_infinity s
     | Zneg _ => S754_nan
     end) = S754_finite s mf ef
    /\ e <= ef <= e + 1
    /\ Zpos mf * 2 ^ (ef - e) = m1
    /\ Zpos (digits2_pos mf) = 53.
Proof.
  intros Hm He.
  destruct (Z_lt_le_dec m1 (2 ^ 53)) as [Hlt | Hge].
  - rewrite shr_fexp_53 by (try apply Zdigits2_53; lia).
    destruct m1 as [|p|p]; try lia. simpl shr_m.
    exists p, e. replace (e <=? emax - prec) with true
      by (symmetry; apply Z.leb_le; unfold emax, prec; lia).
    repeat split; try lia.
    + rewrite Z.sub_diag. simpl. lia.
    + apply digits2_pos_unique. lia.
  - assert (m1 = 2 ^ 53) as -> by lia.
    rewrite shr_fexp_54 by (try apply Zdigits2_54; lia).
    exists (2 ^ 52)%positive, (e + 1).
    replace (e + 1 <=? emax - prec) with true
      by (symmetry; apply Z.leb_le; unfold emax, prec; lia).
    repeat split; try lia.
    replace (e + 1 - e) with 1 by lia. reflexivity.
Qed.

(** The results of [binary_round_aux] on a mantissa of 53 or 54 bits. *)
Lemma binary_round_aux_53 (s : bool) (m e : Z) (l : location) :
  2 ^ 52 <= m < 2 ^ 53 -> -1074 <= e <= 970 ->
  exists (mf : positive) (ef : Z),
    binary_round_aux prec emax s m e l = S754_finite s mf ef
    /\ e <= ef <= e + 1
    /\ Zpos mf * 2 ^ (ef - e) = round_nearest_even m l
    /\ Zpos (digits2_pos mf) = 53.
Proof.
  intros Hm He. unfold binary_round_aux.
  rewrite shr_fexp_53 by (try apply Zdigits2_53; lia).
  rewrite shr_m_of_loc, loc_of_shr_record_of_loc.
  pose proof (round_nearest_even_bounds m l).
  apply round_finish; lia.
Qed.

Lemma binary_round_aux_54 (s : bool) (m e : Z) (l : location) :
  2 ^ 53 <= m < 2 ^ 54 -> -1075 <= e <= 969 ->
  exists (mf : positive) (ef : Z),
    binary_round_aux prec emax s m e l = S754_finite s mf ef
    /\ e + 1 <= ef <= e + 2
    /\ Zpos mf * 2 ^ (ef - (e + 1)) =
         (let r := shr_1 (shr_record_of_loc m l) in
          round_nearest_even (shr_m r) (loc_of_shr_record r))
    /\ Zpos (digits2_pos mf) = 53.
Proof.
  intros Hm He. unfold binary_round_aux.
  rewrite shr_fexp_54 by (try apply Zdigits2_54; lia).
  set (r := shr_1 (shr_record_of_loc m l)).
  assert (Hr : shr_m r = m / 2).
  { unfold r. rewrite shr_m_shr_1 by (rewrite shr_m_of_loc; lia).
    rewrite shr_m_of_loc. apply Z.div2_div. }
  pose proof (round_nearest_even_bounds (shr_m r) (loc_of_shr_record r)) as Hb.
  assert (2 ^ 52 <= m / 2 < 2 ^ 53).
  { split; [apply Z.div_le_lower_bound | apply Z.div_lt_upper_bound]; lia. }
  destruct (round_finish s (round_nearest_even (shr_m r) (loc_of_shr_record r)) (e + 1))
    as (mf & ef & Heq & Hef & Hv & Hd); try lia.
  exists mf, ef. cbv zeta. repeat split; try lia; assumption.
Qed.

End Rounding.


Section Conversion.

Import F64.

Lemma binary_round_aux_exact (s : bool) (m : positive) (e : Z) :
  2 ^ 52 <= Zpos m < 2 ^ 53 -> -1074 <= e <= 971 ->
  binary_round_aux prec emax s (Zpos m) e loc_Exact = S754_finite s m e.
Proof.
  intros Hm He. unfold binary_round_aux.
  rewrite shr_fexp_53 by (try apply Zdigits2_53; lia).
  simpl shr_m. simpl loc_of_shr_record. simpl round_nearest_even.
  rewrite shr_fexp_53 by (try apply Zdigits2_53; lia).
  simpl shr_m.
  replace (e <=? emax - prec) with true
    by (symmetry; apply Z.leb_le; unfold emax, prec; lia).
  reflexivity.
Qed.

Lemma digits2_pos_log2 (p : positive) : Zpos (digits2_pos p) = Z.log2 (Zpos p) + 1.
Proof.
  apply digits2_pos_unique.
  pose proof (Z.log2_spec (Zpos p) eq_refl) as H.
  replace (Z.log2 (Zpos p) + 1 - 1) with (Z.log2 (Zpos p)) by lia.
  exact H.
Qed.


Lemma log2_lt_53 (n : Z) : 0 < n < 2 ^ 53 -> 0 <= Z.log2 n < 53.
Proof.
  intros H. split; [apply Z.log2_nonneg|].
  apply Z.log2_lt_pow2; lia.
Qed.

Lemma mant_bounds (n : Z) : 0 < n < 2 ^ 53 -> 2 ^ 52 <= mant n < 2 ^ 53.
Proof.
  intros H. pose proof (log2_lt_53 n H) as Hl.
  pose proof (Z.log2_spec n (proj1 H)) as [Hlo Hhi].
  unfold mant.
  replace (2 ^ 52) with (2 ^ Z.log2 n * 2 ^ (52 - Z.log2 n))
    by (rewrite <- Z.pow_add_r by lia; f_equal; lia).
  replace (2 ^ 53) with (2 ^ Z.succ (Z.log2 n) * 2 ^ (52 - Z.log2 n))
    by (rewrite <- Z.pow_add_r by lia; f_equal; lia).
  assert (0 < 2 ^ (52 - Z.log2 n)) by (apply Z.pow_pos_nonneg; lia).
  split; [apply Z.mul_le_mono_nonneg_r | apply Z.mul_lt_mono_pos_r]; lia.
Qed.

(** Conversion of an integer below [2^53] is exact. *)
Lemma of_Z_exact (n : Z) :
  0 < n < 2 ^ 53 ->
  of_Z n = S754_finite false (Z.to_pos (mant n)) (expo n).
Proof.
  intros H. pose proof (log2_lt_53 n H) as Hl.
  pose proof (mant_bounds n H) as Hm.
  destruct n as [|p|p]; try lia.
  unfold of_Z, binary_normalize, binary_round.
  rewrite Z.add_0_r, fexp_normal by (pose proof (Pos2Z.is_pos (digits2_pos p)); lia).
  rewrite digits2_pos_log2.
  unfold shl_align.
  destruct (Z.eq_dec (Z.log2 (Zpos p)) 52) as [E | NE].
  - rewrite E. simpl Z.sub. cbv beta iota zeta.
    rewrite binary_round_aux_exact; try lia.
    + unfold mant, expo. rewrite E. simpl Z.sub. simpl (2 ^ 0).
      rewrite Z.mul_1_r. reflexivity.
    + unfold mant in Hm. rewrite E in Hm. simpl in Hm. lia.
  - remember (Z.log2 (Zpos p) + 1 - 53 - 0) as k eqn:Hk.
    destruct k as [|k|k]; try lia.
    assert (Hv : Zpos (Pos.iter xO p k) = mant (Zpos p)).
    { rewrite iter_xO. unfold mant. f_equal. f_equal. lia. }
    cbv beta iota zeta.
    rewrite binary_round_aux_exact; try lia.
    unfold expo. f_equal.
    + rewrite <- Hv. reflexivity.
    + lia.
Qed.

Lemma mant_expo (n : Z) : 0 < n < 2 ^ 53 -> mant n = n * 2 ^ (- expo n) /\ -52 <= expo n <= 0.
Proof.
  intros H. pose proof (log2_lt_53 n H). unfold mant, expo.
  split; [f_equal; f_equal|]; lia.
Qed.

Lemma of_Z_0 : of_Z 0 = zero.
Proof. reflexivity. Qed.

End Conversion.


Section CeilArith.

Import F64 math.

Lemma ceil_scaled_unique (m e c : Z) :
  e <= 0 -> (c - 1) * 2 ^ (- e) < m <= c * 2 ^ (- e) -> ceil_scaled m e = c.
Proof.
  intros He [Hlo Hhi]. unfold ceil_scaled.
  assert (HG : 0 < 2 ^ (- e)) by (apply Z.pow_pos_nonneg; lia).
  destruct (Z.leb_spec 0 e) as [H0 | H0].
  - assert (e = 0) as -> by lia. simpl in *. lia.
  - assert (- m / 2 ^ (- e) = - c); [|lia].
    symmetry. apply Z.div_unique with (c * 2 ^ (- e) - m). 
    + left. lia.
    + lia.
Qed.

(** The arithmetic of a rounded quotient: rounding [a*G/b] to an integer,
    to nearest, does not move it across a multiple of [G] as long as the
    quotient has 53 bits and [a] has no more. *)
Lemma ceil_round_core (a b G m1 : Z) :
  0 < a < 2 ^ 53 -> 0 < b -> 0 < G ->
  2 ^ 52 <= (a * G) / b ->
  (a * G) / b <= m1 <= (a * G) / b + 1 ->
  ((a * G) mod b = 0 -> m1 = (a * G) / b) ->
  (b < 2 * ((a * G) mod b) -> m1 = (a * G) / b + 1) ->
  ((a + b - 1) / b - 1) * G < m1 <= (a + b - 1) / b * G.
Proof.
  intros Ha Hb HG Hq Hm Hex Hup.
  set (c := (a + b - 1) / b).
  assert (Hc : c * b - b < a <= c * b).
  { unfold c. pose proof (Z.div_mod (a + b - 1) b ltac:(lia)).
    pose proof (Z.mod_pos_bound (a + b - 1) b Hb). lia. }
  pose proof (Z.div_mod (a * G) b ltac:(lia)) as HA.
  pose proof (Z.mod_pos_bound (a * G) b Hb) as Hr.
  set (qq := (a * G) / b) in *. set (rr := (a * G) mod b) in *.
  split.
  - (* lower bound *)
    assert (H1 : (c - 1) * G * b + G <= a * G) by nia.
    assert (H2 : (c - 1) * G <= qq) by nia.
    destruct (Z.eq_dec qq ((c - 1) * G)) as [E | NE]; [|lia].
    assert (G <= rr) by nia.
    assert (2 ^ 52 * b < 2 ^ 53 * G) by nia.
    assert (b < 2 * rr) by lia.
    specialize (Hup ltac:(assumption)). lia.
  - (* upper bound *)
    assert (H1 : a * G <= c * G * b) by nia.
    assert (H2 : qq <= c * G) by nia.
    destruct (Z.eq_dec qq (c * G)) as [E | NE]; [|lia].
    assert (rr = 0) by nia.
    specialize (Hex ltac:(assumption)). lia.
Qed.

End CeilArith.


Section Division.

Import F64 math.

Lemma div_eucl_div_mod (a b : Z) : Z.div_eucl a b = (a / b, a mod b).
Proof. unfold Z.div, Z.modulo. destruct (Z.div_eucl a b). reflexivity. Qed.

(** Where the remainder [k] of a division by [nb] lies: nowhere, below,
    at or above the half. *)
Lemma new_location_spec (nb k : Z) :
  0 <= k < nb ->
  new_location nb k = if k =? 0 then loc_Exact else loc_Inexact (2 * k ?= nb).
Proof.
  intros Hk. unfold new_location, new_location_even, new_location_odd.
  destruct (Z.even nb) eqn:Ev; [reflexivity|].
  destruct (k =? 0); [reflexivity|]. f_equal.
  assert (Hodd : Z.odd nb = true) by (rewrite <- Z.negb_even, Ev; reflexivity).
  apply Z.odd_spec in Hodd. destruct Hodd as [h Hh].
  destruct (Z.compare_spec (2 * k + 1) nb); symmetry;
    [apply Z.compare_lt_iff | apply Z.compare_lt_iff | apply Z.compare_gt_iff]; lia.
Qed.

Lemma SFdiv_core_53 (m1 e1 m2 e2 : Z) :
  2 ^ 52 <= m1 < 2 ^ 53 -> 2 ^ 52 <= m2 < 2 ^ 53 -> -1021 <= e1 - e2 ->
  SFdiv_core_binary prec emax m1 e1 m2 e2 =
    ((m1 * 2 ^ 53) / m2, e1 - e2 - 53, new_location m2 ((m1 * 2 ^ 53) mod m2)).
Proof.
  intros H1 H2 He. unfold SFdiv_core_binary.
  rewrite !Zdigits2_53 by assumption.
  rewrite fexp_normal by lia.
  replace (Z.min (53 + e1 - (53 + e2) - 53) (e1 - e2)) with (e1 - e2 - 53) by lia.
  replace (e1 - e2 - (e1 - e2 - 53)) with 53 by lia.
  rewrite Z.shiftl_mul_pow2 by lia.
  rewrite div_eucl_div_mod. reflexivity.
Qed.

Lemma half_quotient (T mb : Z) :
  0 < mb -> 0 <= T ->
  T / (2 * mb) = Z.div2 (T / mb)
  /\ (T mod (2 * mb) < mb ->
      Z.even (T / mb) = true /\ T mod mb = T mod (2 * mb))
  /\ (mb <= T mod (2 * mb) ->
      Z.even (T / mb) = false /\ T mod mb = T mod (2 * mb) - mb).
Proof.
  intros Hmb HT.
  pose proof (Z.div_mod T (2 * mb) ltac:(lia)) as HD.
  pose proof (Z.mod_pos_bound T (2 * mb) ltac:(lia)) as HR.
  set (qq := T / (2 * mb)) in *. set (RR := T mod (2 * mb)) in *.
  destruct (Z_lt_le_dec RR mb) as [Hlt | Hge].
  - assert (Hq : T / mb = 2 * qq)
      by (symmetry; apply Z.div_unique with RR; [left; lia | lia]).
    assert (Hr : T mod mb = RR)
      by (symmetry; apply Z.mod_unique with (2 * qq); [left; lia | lia]).
    rewrite Hq, Hr, Z.div2_div, Z.even_mul.
    replace (2 * qq / 2) with qq by (rewrite Z.mul_comm, Z.div_mul; lia).
    repeat split; try lia; reflexivity.
  - assert (Hq : T / mb = 2 * qq + 1)
      by (symmetry; apply Z.div_unique with (RR - mb); [left; lia | lia]).
    assert (Hr : T mod mb = RR - mb)
      by (symmetry; apply Z.mod_unique with (2 * qq + 1); [left; lia | lia]).
    rewrite Hq, Hr, Z.div2_div.
    replace ((2 * qq + 1) / 2) with qq
      by (apply Z.div_unique with 1; [left; lia | lia]).
    replace (2 * qq + 1) with (1 + 2 * qq) by lia.
    rewrite Z.even_add_mul_2.
    repeat split; try lia; reflexivity.
Qed.

(** Rounding after one bit has been shifted out. *)
Lemma rne_shr_1 (q : Z) (l : location) :
  0 < q ->
  let r := shr_1 (shr_record_of_loc q l) in
  let m := round_nearest_even (shr_m r) (loc_of_shr_record r) in
  Z.div2 q <= m <= Z.div2 q + 1
  /\ (Z.even q = true -> l = loc_Exact -> m = Z.div2 q)
  /\ (Z.even q = false -> l <> loc_Exact -> m = Z.div2 q + 1).
Proof.
  intros Hq. destruct q as [|p|p]; try lia.
  destruct p as [p|p|]; destruct l as [|[]]; cbn -[Z.add Z.even];
    repeat split; intros; try discriminate; try congruence; try lia;
    try (destruct (Z.even (Z.pos p)); lia);
    try (destruct (Z.even 0); lia).
Qed.

End Division.


Section DivisionRounded.

Import F64 math.

(** The quotient of two normal numbers with 53-bit mantissas [ma], [mb]:
    the mantissa [m1] kept at exponent [e0] is the integer quotient [T / D]
    or the next integer, the former when the division is exact and the
    latter when the remainder is above the half. *)
Lemma div_finite_round (ma mb : positive) (ea eb : Z) :
  2 ^ 52 <= Zpos ma < 2 ^ 53 -> 2 ^ 52 <= Zpos mb < 2 ^ 53 ->
  -52 <= ea <= 0 -> -52 <= eb <= 0 ->
  exists (mf : positive) (ef sh : Z),
    div (S754_finite false ma ea) (S754_finite false mb eb) = S754_finite false mf ef
    /\ 0 <= sh <= 1
    /\ 2 ^ 52 <= Zpos mf < 2 ^ 53
    /\ ea - eb - 53 + sh <= ef <= ea - eb - 53 + sh + 1
    /\ 2 ^ 52 <= (Zpos ma * 2 ^ 53) / (Zpos mb * 2 ^ sh)
    /\ (Zpos ma * 2 ^ 53) / (Zpos mb * 2 ^ sh)
         <= Zpos mf * 2 ^ (ef - (ea - eb - 53 + sh))
         <= (Zpos ma * 2 ^ 53) / (Zpos mb * 2 ^ sh) + 1
    /\ ((Zpos ma * 2 ^ 53) mod (Zpos mb * 2 ^ sh) = 0 ->
        Zpos mf * 2 ^ (ef - (ea - eb - 53 + sh)) = (Zpos ma * 2 ^ 53) / (Zpos mb * 2 ^ sh))
    /\ (Zpos mb * 2 ^ sh < 2 * ((Zpos ma * 2 ^ 53) mod (Zpos mb * 2 ^ sh)) ->
        Zpos mf * 2 ^ (ef - (ea - eb - 53 + sh)) = (Zpos ma * 2 ^ 53) / (Zpos mb * 2 ^ sh) + 1).
Proof.
  intros Hma Hmb Hea Heb.
  unfold div, SFdiv. rewrite SFdiv_core_53 by lia. simpl xorb.
  set (T := Zpos ma * 2 ^ 53).
  pose proof (Z.div_mod T (Zpos mb) ltac:(lia)) as HD.
  pose proof (Z.mod_pos_bound T (Zpos mb) ltac:(lia)) as HR.
  set (q := T / Zpos mb) in *. set (r := T mod Zpos mb) in *.
  assert (HT : 2 ^ 52 * 2 ^ 53 <= T < 2 ^ 53 * 2 ^ 53) by (unfold T; lia).
  assert (Hq : 2 ^ 52 <= q < 2 ^ 54) by nia.
  rewrite new_location_spec by lia.
  set (l := if r =? 0 then loc_Exact else loc_Inexact (2 * r ?= Zpos mb)).
  destruct (Z_lt_le_dec q (2 ^ 53)) as [Hlt | Hge].
  - destruct (binary_round_aux_53 false q (ea - eb - 53) l) as (mf & ef & Heq & Hef & Hv & Hd);
      try lia.
    exists mf, ef, 0.
    pose proof (digits2_pos_bounds mf) as Hdb. rewrite Hd in Hdb.
    pose proof (round_nearest_even_bounds q l) as Hb.
    rewrite Z.add_0_r, Z.pow_0_r, Z.mul_1_r. fold q. fold r. rewrite Hv.
    split; [exact Heq|]. repeat split; try lia.
    + intros Hr0. unfold l. rewrite Hr0. reflexivity.
    + intros Hr2. unfold l.
      destruct (Z.eqb_spec r 0) as [|_]; [lia|].
      replace (2 * r ?= Zpos mb) with Gt by (symmetry; apply Z.compare_gt_iff; lia).
      reflexivity.
  - destruct (binary_round_aux_54 false q (ea - eb - 53) l) as (mf & ef & Heq & Hef & Hv & Hd);
      try lia.
    exists mf, ef, 1.
    pose proof (digits2_pos_bounds mf) as Hdb. rewrite Hd in Hdb.
    destruct (rne_shr_1 q l ltac:(lia)) as (Hb & Hev & Hod).
    cbv zeta in Hv, Hb, Hev, Hod.
    destruct (half_quotient T (Zpos mb) ltac:(lia) ltac:(lia)) as (Hqq & Hlo & Hhi).
    fold q in Hqq, Hlo, Hhi. fold r in Hlo, Hhi.
    replace (Zpos mb * 2 ^ 1) with (2 * Zpos mb) by lia.
    pose proof (Z.mod_pos_bound T (2 * Zpos mb) ltac:(lia)) as HRR.
    rewrite Hqq. rewrite Hv.
    assert (Hq2 : 2 ^ 52 <= Z.div2 q).
    { rewrite Z.div2_div. apply Z.div_le_lower_bound; lia. }
    split; [exact Heq|]. repeat split; try lia.
    + intros HR0. destruct Hlo as [Hlo1 Hlo2]; [lia|].
      apply Hev; [exact Hlo1|]. unfold l.
      replace (r =? 0) with true by (symmetry; apply Z.eqb_eq; lia). reflexivity.
    + intros HR2. destruct Hhi as [Hhi1 Hhi2]; [lia|].
      apply Hod; [exact Hhi1|]. unfold l.
      destruct (Z.eqb_spec r 0) as [|_]; [lia|]. discriminate.
Qed.

End DivisionRounded.


Section CeilDivision.

Import F64 math.

(** [Ceil(float64(a) / float64(b))] is the integer ceiling of [a / b]
    when [a] and [b] have at most 53 bits. *)
Lemma div_of_Z_ceil (a b : Z) :
  0 < a < 2 ^ 53 -> 0 < b < 2 ^ 53 ->
  exists (mf : positive) (ef : Z),
    div (of_Z a) (of_Z b) = S754_finite false mf ef
    /\ 2 ^ 52 <= Zpos mf < 2 ^ 53
    /\ -106 <= ef <= 0
    /\ ceil_scaled (Zpos mf) ef = (a + b - 1) / b.
Proof.
  intros Ha Hb.
  rewrite (of_Z_exact a Ha), (of_Z_exact b Hb).
  pose proof (mant_bounds a Ha) as Hma. pose proof (mant_bounds b Hb) as Hmb.
  destruct (mant_expo a Ha) as [Ema Hea]. destruct (mant_expo b Hb) as [Emb Heb].
  set (ea := expo a) in *. set (eb := expo b) in *.
  destruct (div_finite_round (Z.to_pos (mant a)) (Z.to_pos (mant b)) ea eb)
    as (mf & ef & sh & Heq & Hsh & Hmf & Hef & Hq & Hm1 & Hex & Hup);
    try (rewrite Z2Pos.id by lia; lia); try lia.
  rewrite !Z2Pos.id in * by lia.
  exists mf, ef. split; [exact Heq|]. split; [exact Hmf|].
  set (e0 := ea - eb - 53 + sh) in *.
  set (G := 2 ^ (- e0)). set (K := 2 ^ (sh - eb)).
  assert (HG : 0 < G) by (apply Z.pow_pos_nonneg; lia).
  assert (HK : 0 < K) by (apply Z.pow_pos_nonneg; lia).
  assert (HT : mant a * 2 ^ 53 = a * G * K).
  { rewrite Ema. unfold G, K. rewrite <- !Z.mul_assoc, <- !Z.pow_add_r by lia.
    f_equal. f_equal. unfold e0. lia. }
  assert (HDv : mant b * 2 ^ sh = b * K).
  { rewrite Emb. unfold K. rewrite <- !Z.mul_assoc, <- !Z.pow_add_r by lia.
    f_equal. f_equal. lia. }
  rewrite HT, HDv in *.
  rewrite Z.div_mul_cancel_r in * by lia.
  rewrite Z.mul_mod_distr_r in * by lia.
  set (m1 := Zpos mf * 2 ^ (ef - e0)) in *.
  assert (Hcore : ((a + b - 1) / b - 1) * G < m1 <= (a + b - 1) / b * G).
  { assert (Hex' : (a * G) mod b = 0 -> m1 = a * G / b)
      by (intros E; apply Hex; rewrite E; lia).
    assert (Hup' : b < 2 * ((a * G) mod b) -> m1 = a * G / b + 1)
      by (intros E; apply Hup;
          assert (b * K < 2 * ((a * G) mod b) * K) by (apply Z.mul_lt_mono_pos_r; lia);
          lia).
    apply ceil_round_core; try assumption; lia. }
  set (c := (a + b - 1) / b) in *.
  assert (Hc : 0 < c <= a).
  { unfold c. split.
    - apply Z.div_str_pos. lia.
    - apply Z.div_le_upper_bound; [lia|].
      assert (0 <= (b - 1) * (a - 1)) by (apply Z.mul_nonneg_nonneg; lia). lia. }
  destruct (Z.eq_dec ef e0) as [E | NE].
  - unfold m1 in Hcore. rewrite E, Z.sub_diag, Z.pow_0_r, Z.mul_1_r in Hcore.
    split; [unfold e0 in *; lia|].
    apply ceil_scaled_unique; [unfold e0 in *; lia|].
    rewrite E. exact Hcore.
  - assert (E : ef = e0 + 1) by lia.
    unfold m1 in Hcore. rewrite E in Hcore.
    replace (e0 + 1 - e0) with 1 in Hcore by lia.
    assert (e0 <> 0).
    { intros E0. unfold G in Hcore. rewrite E0 in Hcore. simpl in Hcore. lia. }
    assert (HG2 : G = 2 * 2 ^ (- ef)).
    { unfold G. rewrite E. replace (- e0) with (Z.succ (- (e0 + 1))) by lia.
      rewrite Z.pow_succ_r by (unfold e0 in *; lia). reflexivity. }
    split; [unfold e0 in *; lia|].
    apply ceil_scaled_unique; [unfold e0 in *; lia|].
    rewrite HG2 in Hcore. lia.
Qed.

End CeilDivision.


Section Comparison.

Import F64 math.

(** A canonical mantissa has at most 53 bits, and exactly 53 above the
    least exponent. *)
Lemma canonical_cases (m : positive) (e : Z) :
  canonical_mantissa prec emax m e = true ->
  -1074 <= e /\ Zpos m < 2 ^ 53 /\ (-1074 < e -> 2 ^ 52 <= Zpos m).
Proof.
  unfold canonical_mantissa, fexp, emin, prec, emax. intros H.
  apply Z.eqb_eq in H.
  pose proof (digits2_pos_bounds m) as [Hlo Hhi].
  set (d := Zpos (digits2_pos m)) in *.
  assert (Hd : d <= 53) by lia.
  split; [lia|]. split.
  - apply Z.lt_le_trans with (2 ^ d); [exact Hhi|].
    apply Z.pow_le_mono_r; lia.
  - intros He. assert (d = 53) as E by lia. rewrite E in Hlo. exact Hlo.
Qed.

(** Canonical positive numbers compare as the integers they are at any
    common scale [2 ^ t]. *)
Lemma SFcompare_canonical (m1 m2 : positive) (e1 e2 t : Z) :
  canonical_mantissa prec emax m1 e1 = true ->
  canonical_mantissa prec emax m2 e2 = true ->
  t <= e1 -> t <= e2 ->
  SFcompare (S754_finite false m1 e1) (S754_finite false m2 e2) =
    Some (Zpos m1 * 2 ^ (e1 - t) ?= Zpos m2 * 2 ^ (e2 - t)).
Proof.
  intros C1 C2 T1 T2.
  apply canonical_cases in C1. destruct C1 as (L1 & U1 & N1).
  apply canonical_cases in C2. destruct C2 as (L2 & U2 & N2).
  unfold SFcompare. f_equal.
  change (Pos.compare_cont Eq m1 m2) with (Zpos m1 ?= Zpos m2).
  destruct (Z.compare_spec e1 e2) as [E | E | E].
  - subst e2.
    assert (0 < 2 ^ (e1 - t)) by (apply Z.pow_pos_nonneg; lia).
    rewrite <- Zmult_compare_compat_r by lia. reflexivity.
  - symmetry. apply Z.compare_lt_iff.
    assert (HP : 0 < 2 ^ (e1 - t)) by (apply Z.pow_pos_nonneg; lia).
    assert (HQ : 2 * 2 ^ (e1 - t) <= 2 ^ (e2 - t)).
    { rewrite <- Z.pow_succ_r by lia. apply Z.pow_le_mono_r; lia. }
    specialize (N2 ltac:(lia)).
    apply Z.lt_le_trans with (2 ^ 52 * (2 * 2 ^ (e1 - t))); [nia|].
    apply Z.mul_le_mono_nonneg; lia.
  - symmetry. apply Z.compare_gt_iff.
    assert (HP : 0 < 2 ^ (e2 - t)) by (apply Z.pow_pos_nonneg; lia).
    assert (HQ : 2 * 2 ^ (e2 - t) <= 2 ^ (e1 - t)).
    { rewrite <- Z.pow_succ_r by lia. apply Z.pow_le_mono_r; lia. }
    specialize (N1 ltac:(lia)).
    apply Z.lt_le_trans with (2 ^ 52 * (2 * 2 ^ (e2 - t))); [nia|].
    apply Z.mul_le_mono_nonneg; lia.
Qed.

Lemma of_Z_canonical (n : Z) :
  0 < n < 2 ^ 53 ->
  canonical_mantissa prec emax (Z.to_pos (mant n)) (expo n) = true.
Proof.
  intros H. pose proof (mant_bounds n H). destruct (mant_expo n H) as [_ He].
  unfold canonical_mantissa. apply Z.eqb_eq.
  rewrite (digits2_pos_unique _ 53) by (rewrite Z2Pos.id; lia).
  rewrite fexp_normal; lia.
Qed.

(** The value of [float64(n)] at scale [2 ^ t]. *)
Lemma of_Z_scaled (n t : Z) :
  0 < n < 2 ^ 53 -> t <= expo n ->
  Zpos (Z.to_pos (mant n)) * 2 ^ (expo n - t) = n * 2 ^ (- t).
Proof.
  intros H Ht. pose proof (mant_bounds n H). destruct (mant_expo n H) as [E He].
  rewrite Z2Pos.id by lia. rewrite E, <- Z.mul_assoc, <- Z.pow_add_r by lia.
  f_equal. f_equal. lia.
Qed.

Lemma SFcompare_of_Z (a b : Z) :
  0 < a < 2 ^ 53 -> 0 < b < 2 ^ 53 ->
  SFcompare (of_Z a) (of_Z b) = Some (a ?= b).
Proof.
  intros Ha Hb. rewrite (of_Z_exact a Ha), (of_Z_exact b Hb).
  destruct (mant_expo a Ha) as [_ Hea]. destruct (mant_expo b Hb) as [_ Heb].
  rewrite (SFcompare_canonical _ _ _ _ (-52)) by (try apply of_Z_canonical; lia).
  rewrite !of_Z_scaled by lia.
  rewrite <- Zmult_compare_compat_r by reflexivity. reflexivity.
Qed.

Lemma Max_of_Z (a b : Z) :
  0 < a < 2 ^ 53 -> 0 < b < 2 ^ 53 ->
  Max (of_Z a) (of_Z b) = of_Z (Z.max a b).
Proof.
  intros Ha Hb. unfold Max, ltb, SFltb.
  rewrite (SFcompare_of_Z b a Hb Ha).
  rewrite (of_Z_exact a Ha), (of_Z_exact b Hb). simpl.
  rewrite <- (of_Z_exact a Ha), <- (of_Z_exact b Hb).
  destruct (Z.compare_spec b a); [subst; rewrite Z.max_id; reflexivity | |].
  - rewrite Z.max_l by lia. reflexivity.
  - rewrite Z.max_r by lia. reflexivity.
Qed.

Lemma to_Z_of_Z (c : Z) : 0 <= c < 2 ^ 53 -> to_Z (of_Z c) = Some c.
Proof.
  intros H. destruct (Z.eq_dec c 0) as [-> | NZ]; [reflexivity|].
  assert (Hc : 0 < c < 2 ^ 53) by lia.
  rewrite (of_Z_exact c Hc). simpl. f_equal.
  pose proof (mant_bounds c Hc). destruct (mant_expo c Hc) as [E He].
  rewrite Z2Pos.id by lia. unfold trunc_scaled.
  destruct (Z.leb_spec 0 (expo c)).
  - assert (E0 : expo c = 0) by lia. rewrite E, E0. simpl. lia.
  - rewrite E. apply Z.quot_mul.
    apply Z.pow_nonzero; lia.
Qed.

Lemma Ceil_of_Z (c : Z) : 0 <= c < 2 ^ 53 -> Ceil (of_Z c) = of_Z c.
Proof.
  intros H. destruct (Z.eq_dec c 0) as [-> | NZ]; [reflexivity|].
  assert (Hc : 0 < c < 2 ^ 53) by lia.
  rewrite (of_Z_exact c Hc). unfold Ceil.
  pose proof (mant_bounds c Hc). destruct (mant_expo c Hc) as [E He].
  destruct (Z.leb_spec 0 (expo c)); [reflexivity|].
  simpl cond_Zopp. rewrite Z2Pos.id by lia.
  assert (0 < 2 ^ (- expo c)) by (apply Z.pow_pos_nonneg; lia).
  rewrite (ceil_scaled_unique _ _ c) by (rewrite ?E; lia).
  replace (c =? 0) with false by (symmetry; apply Z.eqb_neq; lia).
  rewrite (of_Z_exact c Hc). reflexivity.
Qed.

End Comparison.


Section WordFacts.

Context {P : Platform}.
Import F64 math.

Lemma modulus_cases : modulus = 2 ^ 32 \/ modulus = 2 ^ 64.
Proof. unfold modulus. destruct uint_bits_cases as [-> | ->]; auto. Qed.

Lemma modulus_pos : 0 < modulus.
Proof. destruct modulus_cases as [-> | ->]; reflexivity. Qed.

Lemma half_modulus : 2 ^ (uint_bits - 1) * 2 = modulus.
Proof. unfold modulus. destruct uint_bits_cases as [-> | ->]; reflexivity. Qed.

Lemma wrap_range (z : Z) : 0 <= wrap z < modulus.
Proof. apply Z.mod_pos_bound, modulus_pos. Qed.

Lemma wrap_small (z : Z) : 0 <= z < modulus -> wrap z = z.
Proof. apply Z.mod_small. Qed.

Lemma int_small (u : Z) : u < 2 ^ (uint_bits - 1) -> int u = u.
Proof. intros H. unfold int. apply Z.ltb_lt in H. rewrite H. reflexivity. Qed.

Lemma uint_range (x : float64) : 0 <= uint x < modulus.
Proof.
  unfold uint. destruct (to_Z x) as [n|]; [|apply wrap_range].
  destruct (Z.leb_spec 0 n); destruct (Z.ltb_spec n modulus); simpl;
    try apply wrap_range. lia.
Qed.

Lemma uint_of_Z (c : Z) : 0 <= c < 2 ^ 53 -> c < modulus -> uint (of_Z c) = c.
Proof.
  intros Hc Hm. unfold uint. rewrite to_Z_of_Z by assumption.
  replace (0 <=? c) with true by (symmetry; apply Z.leb_le; lia).
  replace (c <? modulus) with true by (symmetry; apply Z.ltb_lt; lia).
  reflexivity.
Qed.

Lemma uint_Ceil_finite (mf : positive) (ef c : Z) :
  ceil_scaled (Zpos mf) ef = c -> 0 < c < 2 ^ 53 -> c < modulus ->
  uint (Ceil (S754_finite false mf ef)) = c.
Proof.
  intros Hceil Hc Hm. unfold Ceil.
  destruct (Z.leb_spec 0 ef) as [He | He].
  - unfold uint, to_Z, trunc_scaled. simpl cond_Zopp.
    unfold ceil_scaled in Hceil.
    replace (0 <=? ef) with true in * by (symmetry; apply Z.leb_le; lia).
    rewrite Hceil.
    replace (0 <=? c) with true by (symmetry; apply Z.leb_le; lia).
    replace (c <? modulus) with true by (symmetry; apply Z.ltb_lt; lia).
    reflexivity.
  - simpl cond_Zopp. rewrite Hceil.
    replace (c =? 0) with false by (symmetry; apply Z.eqb_neq; lia).
    apply uint_of_Z; lia.
Qed.

(** The ceiling division the source writes with [float64]:
    [uint(math.Ceil(float64(a) / float64(b)))]. *)
Lemma uint_Ceil_div (a b : Z) :
  0 < a < 2 ^ 53 -> 0 < b < 2 ^ 53 -> a < modulus ->
  uint (Ceil (div (of_Z a) (of_Z b))) = (a + b - 1) / b.
Proof.
  intros Ha Hb Hm.
  destruct (div_of_Z_ceil a b Ha Hb) as (mf & ef & Heq & Hmf & Hef & Hc).
  rewrite Heq. apply uint_Ceil_finite; [exact Hc | |].
  - split.
    + apply Z.div_str_pos. lia.
    + apply Z.le_lt_trans with a; [|lia].
      apply Z.div_le_upper_bound; [lia|].
      assert (0 <= (b - 1) * (a - 1)) by (apply Z.mul_nonneg_nonneg; lia). lia.
  - apply Z.le_lt_trans with a; [|lia].
    apply Z.div_le_upper_bound; [lia|].
    assert (0 <= (b - 1) * (a - 1)) by (apply Z.mul_nonneg_nonneg; lia). lia.
Qed.

End WordFacts.


Section Logarithm.

Context {P : Platform}.
Import F64 math.

(** A number strictly between [k - 1] and [k], or equal to [k], has
    ceiling [k]. *)
Lemma uint_Ceil_between (x : float64) (k : Z) :
  1 <= k < 2 ^ 32 ->
  valid_binary prec emax x = true ->
  ltb (of_Z (k - 1)) x = true -> leb x (of_Z k) = true ->
  uint (Ceil x) = k.
Proof.
  intros Hk Hv Hlt Hle.
  assert (Hk53 : 0 < k < 2 ^ 53) by lia.
  assert (Hmod : k < modulus) by (destruct modulus_cases as [-> | ->]; lia).
  unfold ltb, SFltb in Hlt. unfold leb, SFleb in Hle.
  rewrite (of_Z_exact k Hk53) in Hle.
  destruct x as [s | s | | s m e].
  - (* zero *)
    destruct (Z.eq_dec k 1) as [-> | NE]; [discriminate Hlt|].
    rewrite (of_Z_exact (k - 1)) in Hlt by lia. discriminate Hlt.
  - (* infinity *)
    destruct s; [|discriminate Hle].
    destruct (Z.eq_dec k 1) as [-> | NE]; [discriminate Hlt|].
    rewrite (of_Z_exact (k - 1)) in Hlt by lia. discriminate Hlt.
  - destruct (of_Z (k - 1)); discriminate Hlt.
  - destruct s.
    { destruct (Z.eq_dec k 1) as [-> | NE]; [discriminate Hlt|].
      rewrite (of_Z_exact (k - 1)) in Hlt by lia. discriminate Hlt. }
    simpl in Hv. unfold bounded in Hv. apply andb_prop in Hv. destruct Hv as [Hcan _].
    pose proof (canonical_cases m e Hcan) as (He & _ & _).
    destruct (mant_expo k Hk53) as [_ Hek].
    set (t := Z.min e (-52)).
    assert (HS : 0 < 2 ^ (e - t)) by (apply Z.pow_pos_nonneg; lia).
    (* upper bound *)
    rewrite (SFcompare_canonical _ _ _ _ t) in Hle
      by (try apply of_Z_canonical; try assumption; lia).
    rewrite of_Z_scaled in Hle by lia.
    assert (Hup : Zpos m * 2 ^ (e - t) <= k * 2 ^ (- t)).
    { destruct (Z.compare_spec (Zpos m * 2 ^ (e - t)) (k * 2 ^ (- t)));
        first [lia | discriminate Hle]. }
    (* lower bound *)
    assert (Hlo : (k - 1) * 2 ^ (- t) < Zpos m * 2 ^ (e - t)).
    { destruct (Z.eq_dec k 1) as [-> | NE];
        [rewrite Z.sub_diag, Z.mul_0_l; apply Z.mul_pos_pos; lia|].
      rewrite (of_Z_exact (k - 1)) in Hlt by lia.
      destruct (mant_expo (k - 1) ltac:(lia)) as [_ Hek1].
      rewrite (SFcompare_canonical _ _ _ _ t) in Hlt
        by (try apply of_Z_canonical; try assumption; lia).
      rewrite of_Z_scaled in Hlt by lia.
      destruct (Z.compare_spec ((k - 1) * 2 ^ (- t)) (Zpos m * 2 ^ (e - t)));
        first [lia | discriminate Hlt]. }
    apply uint_Ceil_finite; try lia.
    destruct (Z.leb_spec 0 e) as [E0 | E0].
    + unfold ceil_scaled.
      replace (0 <=? e) with true by (symmetry; apply Z.leb_le; lia).
      assert (Et : 2 ^ (e - t) = 2 ^ e * 2 ^ (- t))
        by (rewrite <- Z.pow_add_r by lia; f_equal; lia).
      assert (0 < 2 ^ (- t)) by (apply Z.pow_pos_nonneg; lia).
      rewrite Et in Hup, Hlo. nia.
    + apply ceil_scaled_unique; [lia|].
      assert (Et : 2 ^ (- t) = 2 ^ (- e) * 2 ^ (e - t))
        by (rewrite <- Z.pow_add_r by lia; f_equal; lia).
      rewrite Et in Hup, Hlo. nia.
Qed.

Lemma half_eq : half = S754_finite false (2 ^ 52) (-53).
Proof. vm_compute. reflexivity. Qed.

(** [Frexp] of a converted integer: the exponent is its number of bits,
    and the fraction is one half exactly on the powers of two. *)
Lemma Frexp_of_Z (n : Z) :
  0 < n < 2 ^ 53 ->
  Frexp (of_Z n) = (S754_finite false (Z.to_pos (mant n)) (-53), Z.log2 n + 1).
Proof.
  intros H. rewrite (of_Z_exact n H). unfold Frexp, SFfrexp.
  pose proof (mant_bounds n H).
  rewrite (digits2_pos_unique _ 53) by (rewrite Z2Pos.id; lia).
  change (prec <=? 53) with true. cbv iota. unfold expo, prec.
  f_equal. lia.
Qed.

Lemma mant_pow2 (n : Z) :
  0 < n < 2 ^ 53 -> (mant n = 2 ^ 52 <-> n = 2 ^ Z.log2 n).
Proof.
  intros H. pose proof (log2_lt_53 n H) as Hl.
  assert (HP : 0 < 2 ^ (52 - Z.log2 n)) by (apply Z.pow_pos_nonneg; lia).
  assert (E52 : 2 ^ Z.log2 n * 2 ^ (52 - Z.log2 n) = 2 ^ 52)
    by (rewrite <- Z.pow_add_r by lia; f_equal; lia).
  unfold mant. rewrite <- E52. split.
  - intros E. apply Z.mul_reg_r in E; lia.
  - intros E. rewrite <- E. reflexivity.
Qed.

Lemma eqb_frac_half (n : Z) :
  0 < n < 2 ^ 53 ->
  eqb (S754_finite false (Z.to_pos (mant n)) (-53)) half = (n =? 2 ^ Z.log2 n).
Proof.
  intros H. pose proof (mant_bounds n H) as Hm.
  pose proof (mant_pow2 n H) as Hp.
  rewrite half_eq. unfold eqb, SFeqb, SFcompare.
  change (-53 ?= -53) with Eq. cbv iota.
  rewrite Pos.compare_cont_spec. unfold Pos.switch_Eq.
  destruct (Pos.compare_spec (Z.to_pos (mant n)) (2 ^ 52)) as [E | E | E];
    destruct (Z.eqb_spec n (2 ^ Z.log2 n)) as [E' | E']; try reflexivity; exfalso.
  - apply E', Hp. rewrite <- (Z2Pos.id (mant n)) by lia. rewrite E. reflexivity.
  - apply Hp in E'. rewrite <- (Z2Pos.id (mant n)) in E' by lia.
    apply Pos2Z.inj in E'. rewrite E' in E. 
    apply Pos.lt_irrefl in E. exact E.
  - apply Hp in E'. rewrite <- (Z2Pos.id (mant n)) in E' by lia.
    apply Pos2Z.inj in E'. rewrite E' in E. 
    apply Pos.lt_irrefl in E. exact E.
Qed.

End Logarithm.

(** * The geometry *)

Section GeometryFacts.

Context {P : Platform}.
Import F64 math.

Lemma cdiv_spec (a b : Z) : 0 < b -> (cdiv a b - 1) * b < a <= cdiv a b * b.
Proof.
  intros Hb. unfold cdiv.
  pose proof (Z.div_mod (a + b - 1) b ltac:(lia)).
  pose proof (Z.mod_pos_bound (a + b - 1) b Hb). lia.
Qed.

Lemma cdiv_unique (a b c : Z) : 0 < b -> (c - 1) * b < a <= c * b -> cdiv a b = c.
Proof.
  intros Hb H. unfold cdiv. symmetry.
  apply Z.div_unique with (a + b - 1 - b * c); [left|]; lia.
Qed.


Lemma halve_cdiv (n : Z) : exact_uint n -> halve n = cdiv n 2.
Proof.
  intros [Hn Hm]. unfold halve, cdiv. apply uint_Ceil_div; lia.
Qed.

Lemma Log2_accurate_at_pow2 (k : Z) :
  0 <= k < 53 -> Log2_accurate_at (of_Z (2 ^ k)) = true.
Proof.
  intros Hk. unfold Log2_accurate_at.
  assert (Hn : 0 < 2 ^ k < 2 ^ 53).
  { split; [apply Z.pow_pos_nonneg; lia | apply Z.pow_lt_mono_r; lia]. }
  rewrite (Frexp_of_Z _ Hn), (eqb_frac_half _ Hn).
  rewrite Z.log2_pow2 by lia. rewrite Z.eqb_refl. reflexivity.
Qed.

Lemma GetMaxLevel_of_max (width height : Z) :
  0 < width < 2 ^ 53 -> 0 < height < 2 ^ 53 ->
  Log2_accurate_at (of_Z (Z.max width height)) = true ->
  GetMaxLevel width height = Z.log2_up (Z.max width height).
Proof.
  intros Hw Hh Hacc. unfold GetMaxLevel. rewrite Max_of_Z by assumption.
  set (n := Z.max width height) in *.
  assert (Hn : 0 < n < 2 ^ 53) by (unfold n; lia).
  pose proof (log2_lt_53 n Hn) as Hl.
  unfold Log2_accurate_at in Hacc.
  rewrite (Frexp_of_Z n Hn), (eqb_frac_half n Hn) in Hacc.
  destruct (Z.eqb_spec n (2 ^ Z.log2 n)) as [E | NE].
  - (* a power of two *)
    rewrite (of_Z_exact n Hn).
    rewrite (proj2 (mant_pow2 n Hn) E).
    change (Z.to_pos (2 ^ 52)) with (2 ^ 52)%positive.
    unfold expo. rewrite Log2_pow2 by lia.
    rewrite Ceil_of_Z by lia.
    rewrite uint_of_Z by (try (destruct modulus_cases as [-> | ->]); lia).
    symmetry. rewrite E at 1. apply Z.log2_up_pow2. lia.
  - simpl in Hacc.
    apply andb_prop in Hacc. destruct Hacc as [Hacc Hle].
    apply andb_prop in Hacc. destruct Hacc as [Hv Hlt].
    rewrite (uint_Ceil_between _ (Z.log2 n + 1)); try assumption; try lia.
    pose proof (Z.le_log2_log2_up n). pose proof (Z.le_log2_up_succ_log2 n).
    destruct (Z.eq_dec (Z.log2_up n) (Z.log2 n)) as [E | E]; [|lia].
    exfalso. apply NE.
    destruct (proj1 (Z.log2_log2_up_exact n ltac:(lia)) (eq_sym E)) as [b Hb].
    rewrite Hb at 2. rewrite Hb in Hn.
    assert (0 <= b).
    { destruct (Z_lt_le_dec b 0); [|assumption].
      rewrite Z.pow_neg_r in Hn by assumption. lia. }
    rewrite Z.log2_pow2 by assumption. assumption.
Qed.

Lemma GetLevelGrids_cdiv (level width height tileSize : Z) :
  exact_uint width -> exact_uint height -> 0 < tileSize < 2 ^ 53 ->
  GetLevelGrids level width height tileSize =
    (cdiv width tileSize, cdiv height tileSize).
Proof.
  intros [Hw Hwm] [Hh Hhm] Ht. unfold GetLevelGrids, cdiv.
  rewrite !uint_Ceil_div by assumption. reflexivity.
Qed.

End GeometryFacts.

(** * The tile rectangles *)

Section TileRect.

Context {P : Platform}.

Lemma int_wrap_signed (d : Z) :
  - 2 ^ (uint_bits - 1) <= d < 2 ^ (uint_bits - 1) -> int (wrap d) = d.
Proof.
  intros Hd. pose proof half_modulus as Hm. unfold int, wrap.
  destruct (Z_lt_le_dec d 0) as [Hneg | Hpos].
  - assert (E : d mod modulus = d + modulus).
    { symmetry. apply Z.mod_unique with (-1); [left|]; lia. }
    rewrite E.
    destruct (Z.ltb_spec (d + modulus) (2 ^ (uint_bits - 1))); lia.
  - rewrite Z.mod_small by lia.
    destruct (Z.ltb_spec d (2 ^ (uint_bits - 1))); lia.
Qed.

Lemma wrap_wrap_sub (a b : Z) : wrap (wrap a - b) = wrap (a - b).
Proof.
  unfold wrap. pose proof modulus_pos.
  rewrite Zminus_mod_idemp_l. reflexivity.
Qed.

Lemma wrap_wrap_add (a b : Z) : wrap (wrap a + b) = wrap (a + b).
Proof.
  unfold wrap. rewrite Zplus_mod_idemp_l. reflexivity.
Qed.

Lemma wrap_mul_wrap_l (a b : Z) : wrap (wrap a * b) = wrap (a * b).
Proof.
  unfold wrap. rewrite Zmult_mod_idemp_l. reflexivity.
Qed.

(** The lower edge of a span that is not the first: the unsigned
    difference, read as an [int]. *)
Lemma tile_span_lower (tileSize overlap extent i maxI : Z) :
  i <> 0 ->
  fst (tile_span tileSize overlap extent i maxI) = int (wrap (i * tileSize - overlap)).
Proof.
  intros Hi. unfold tile_span.
  destruct (Z.eqb_spec i 0) as [|_]; [contradiction|].
  simpl. unfold usub, umul. rewrite wrap_wrap_sub. reflexivity.
Qed.

Lemma tile_span_first (tileSize overlap extent maxI : Z) :
  tile_span tileSize overlap extent 0 maxI = (0, int (wrap (tileSize + overlap))).
Proof. reflexivity. Qed.

Lemma tile_span_upper (tileSize overlap extent i maxI : Z) :
  i <> 0 ->
  snd (tile_span tileSize overlap extent i maxI) =
    if i =? wrap (maxI - 1) then int extent
    else int (wrap ((i + 1) * tileSize + overlap)).
Proof.
  intros Hi. unfold tile_span.
  destruct (Z.eqb_spec i 0) as [|_]; [contradiction|].
  simpl. unfold usub, uadd, umul.
  rewrite wrap_mul_wrap_l, wrap_wrap_add. reflexivity.
Qed.

Lemma ComputeTileRect_spans (o : Option) (col row maxCol maxRow : Z) :
  let r := ComputeTileRect o col row maxCol maxRow in
  (image.X (image.Min r), image.X (image.Max r)) =
    tile_span (TileSize o) (Overlap o) (Width o) col maxCol
  /\ (image.Y (image.Min r), image.Y (image.Max r)) =
    tile_span (TileSize o) (Overlap o) (Height o) row maxRow.
Proof.
  unfold ComputeTileRect.
  destruct (tile_span (TileSize o) (Overlap o) (Width o) col maxCol).
  destruct (tile_span (TileSize o) (Overlap o) (Height o) row maxRow).
  simpl. split; reflexivity.
Qed.

(** The span of a tile when nothing wraps: [i] is a cell of a grid of
    [maxI] cells, and the products stay below the sign bit. *)
Lemma tile_span_plain (tileSize overlap extent i maxI : Z) :
  0 <= overlap -> 0 < tileSize -> 0 <= i < maxI ->
  0 <= extent < 2 ^ (uint_bits - 1) ->
  maxI * tileSize + overlap < 2 ^ (uint_bits - 1) ->
  overlap <= tileSize ->
  tile_span tileSize overlap extent i maxI =
    (if i =? 0 then 0 else i * tileSize - overlap,
     if i =? 0 then tileSize + overlap
     else if i =? maxI - 1 then extent
     else (i + 1) * tileSize + overlap).
Proof.
  intros Hov Hts Hi Hext Hbig Hle.
  pose proof half_modulus as Hm.
  assert (Hprod : forall j, 0 <= j <= maxI -> 0 <= j * tileSize <= maxI * tileSize).
  { intros j Hj. split; [apply Z.mul_nonneg_nonneg; lia|].
    apply Z.mul_le_mono_nonneg_r; lia. }
  destruct (Z.eqb_spec i 0) as [-> | Hnz].
  - rewrite tile_span_first. f_equal.
    pose proof (Hprod 1 ltac:(lia)).
    apply int_wrap_signed. lia.
  - pose proof (Hprod i ltac:(lia)). pose proof (Hprod (i + 1) ltac:(lia)).
    assert (tileSize <= i * tileSize) by nia.
    rewrite (surjective_pairing (tile_span tileSize overlap extent i maxI)).
    rewrite tile_span_lower, tile_span_upper by assumption.
    assert (maxI <= maxI * tileSize) by nia.
    rewrite (wrap_small (maxI - 1)) by lia.
    rewrite int_wrap_signed by lia.
    destruct (Z.eqb_spec i (maxI - 1)).
    + rewrite int_small by lia. reflexivity.
    + rewrite int_wrap_signed by lia. reflexivity.
Qed.

End TileRect.

(** * The walker *)

Section WalkerFacts.

Context {P : Platform} {I : Imaging}.

Lemma descend_S (n : nat) (o : Option) (m : NRGBA) :
  descend (S n) o m = let '(o1, m1) := descend n o m in transition o1 m1.
Proof. reflexivity. Qed.

Lemma descend_shift (n : nat) (o : Option) (m : NRGBA) :
  descend (S n) o m = let '(o1, m1) := transition o m in descend n o1 m1.
Proof.
  induction n as [|n IH].
  - reflexivity.
  - rewrite descend_S, IH. unfold transition at 2.
    simpl. destruct (descend n _ _). reflexivity.
Qed.

Lemma bind_Returns {A B : Type} (e : Exit A) (f : A -> Exit B) (b : B) :
  bind e f = Returns b -> exists a, e = Returns a /\ f a = Returns b.
Proof.
  destruct e as [a| |]; simpl; intros H; [|discriminate H|discriminate H].
  exists a. split; [reflexivity | exact H].
Qed.

(** A pass of the loop that gets to its end has left the level as it was,
    replaced the option and the image by those of the next level, and
    started the tasks of the grid. *)
Lemma level_body_Returns (st st' : Walker) :
  level_body st = Returns st' ->
  level st' = level st
  /\ (opt st', tm st') = transition (opt st) (tm st)
  /\ tasks st' = tasks st ++ tasks_at (level st) (opt st) (tm st) 0.
Proof.
  unfold level_body, tasks_at. simpl descend. rewrite Z.sub_0_r.
  destruct (GetLevelGrids _ _ _ _) as [cols rows]. intros H.
  apply bind_Returns in H. destruct H as (c & _ & H).
  apply bind_Returns in H. destruct H as (c' & _ & H).
  injection H as <-. repeat split.
Qed.

Lemma level_body_opt (st st' : Walker) :
  level_body st = Returns st' ->
  (opt st', tm st') = transition (opt st) (tm st).
Proof. intros H. apply (level_body_Returns st st' H). Qed.

Lemma level_body_level (st st' : Walker) :
  level_body st = Returns st' -> level st' = level st.
Proof. intros H. apply (level_body_Returns st st' H). Qed.

Lemma level_body_tasks (st st' : Walker) :
  level_body st = Returns st' ->
  tasks st' = tasks st ++ tasks_at (level st) (opt st) (tm st) 0.
Proof. intros H. apply (level_body_Returns st st' H). Qed.

Lemma tasks_at_shift (top : Z) (o : Option) (m : NRGBA) (n : nat) :
  tasks_at top o m (S n) =
    tasks_at (top - 1) (fst (transition o m)) (snd (transition o m)) n.
Proof.
  unfold tasks_at. rewrite descend_shift. unfold transition. cbv zeta.
  replace (top - Z.of_nat (S n)) with (top - 1 - Z.of_nat n) by lia.
  reflexivity.
Qed.

Lemma seq_flat_map_S {A : Type} (f : nat -> list A) (n : nat) :
  flat_map f (seq 0 (S n)) = f O ++ flat_map (fun j => f (S j)) (seq 0 n).
Proof.
  simpl. f_equal. rewrite <- seq_shift, flat_map_concat_map, map_map.
  rewrite <- flat_map_concat_map. reflexivity.
Qed.

Lemma walk_S (fuel : nat) (st : Walker) :
  walk (S fuel) st =
    if 0 <=? level st then
      match level_body st with
      | Returns st' =>
          if level st' =? 0 then Some (Returns st')
          else walk fuel (with_level st' (usub (level st') 1))
      | Panics msg => Some (Panics msg)
      | Blocks => Some Blocks
      end
    else Some (Returns st).
Proof. reflexivity. Qed.

(** A loop that gets to its end from level [k] has run [k + 1] times and
    has left the level at 0; what it leaves is [k + 1] transitions away,
    and each level on the way has added its tasks once, finest first. *)
Lemma walk_from (k fuel : nat) (st st' : Walker) :
  level st = Z.of_nat k -> Z.of_nat k < modulus ->
  walk fuel st = Some (Returns st') ->
  (k < fuel)%nat
  /\ level st' = 0
  /\ (opt st', tm st') = descend (S k) (opt st) (tm st)
  /\ tasks st' =
       tasks st ++ flat_map (tasks_at (level st) (opt st) (tm st)) (seq 0 (S k)).
Proof.
  revert fuel st. induction k as [|k IH]; intros fuel st Hl Hm H.
  - destruct fuel as [|fuel]; [discriminate H|].
    rewrite walk_S, Hl in H. cbn [Z.of_nat Z.leb Z.compare] in H.
    destruct (level_body st) as [st1| |] eqn:E; try discriminate H.
    destruct (level_body_Returns st st1 E) as (L1 & O1 & T1).
    rewrite L1, Hl in H. cbn [Z.of_nat Z.eqb] in H. injection H as <-.
    split; [lia|]. split; [rewrite L1; exact Hl|]. split.
    + exact O1.
    + cbn [seq flat_map]. rewrite app_nil_r. exact T1.
  - destruct fuel as [|fuel]; [discriminate H|].
    rewrite walk_S, Hl in H.
    replace (0 <=? Z.of_nat (S k)) with true in H by (symmetry; apply Z.leb_le; lia).
    destruct (level_body st) as [st1| |] eqn:E; try discriminate H.
    destruct (level_body_Returns st st1 E) as (L1 & O1 & T1).
    rewrite L1, Hl in H.
    replace (Z.of_nat (S k) =? 0) with false in H by (symmetry; apply Z.eqb_neq; lia).
    set (st2 := with_level st1 (usub (Z.of_nat (S k)) 1)) in H.
    assert (Hl2 : level st2 = Z.of_nat k).
    { change (level st2) with (usub (Z.of_nat (S k)) 1). unfold usub.
      rewrite wrap_small by lia. lia. }
    destruct (IH fuel st2 Hl2 ltac:(lia) H) as (Hf & H0 & Hd & Ht).
    assert (Eo : opt st2 = fst (transition (opt st) (tm st)))
      by (rewrite <- O1; reflexivity).
    assert (Em : tm st2 = snd (transition (opt st) (tm st)))
      by (rewrite <- O1; reflexivity).
    split; [lia|]. split; [exact H0|]. split.
    + rewrite Hd, Eo, Em. rewrite (descend_shift (S k)).
      destruct (transition (opt st) (tm st)). reflexivity.
    + rewrite Ht. rewrite (seq_flat_map_S (tasks_at (level st) (opt st) (tm st))).
      change (tasks st2) with (tasks st1).
      rewrite T1, <- app_assoc.
      f_equal. f_equal.
      apply flat_map_ext. intros j. rewrite tasks_at_shift.
      rewrite Hl2, Eo, Em, Hl. f_equal. lia.
Qed.

Lemma walk_more (fuel : nat) (st : Walker) (e : Exit Walker) :
  walk fuel st = Some e -> walk (S fuel) st = Some e.
Proof.
  revert st. induction fuel as [|fuel IH]; intros st H; [discriminate|].
  rewrite walk_S in H. rewrite walk_S.
  destruct (0 <=? level st); [|exact H].
  destruct (level_body st) as [st1| |]; try exact H.
  destruct (level st1 =? 0); [exact H|].
  apply IH. exact H.
Qed.

Lemma walk_enough (k fuel : nat) (st : Walker) (e : Exit Walker) :
  walk k st = Some e -> (k <= fuel)%nat -> walk fuel st = Some e.
Proof.
  intros H Hle. induction Hle; [exact H|]. apply walk_more. assumption.
Qed.

Lemma walk_short (k fuel : nat) (st : Walker) :
  walk k st = None -> (fuel <= k)%nat -> walk fuel st = None.
Proof.
  intros H Hle. destruct (walk fuel st) eqn:E; [|reflexivity].
  rewrite (walk_enough fuel k st e E Hle) in H. discriminate.
Qed.

Lemma GetMaxLevel_range (width height : Z) : 0 <= GetMaxLevel width height < modulus.
Proof. apply uint_range. Qed.

End WalkerFacts.

(** * The wait group *)

Section WaitGroupFacts.

Context {P : Platform} {I : Imaging}.

Lemma int32_small (z : Z) : - 2 ^ 31 <= z < 2 ^ 31 -> int32 z = z.
Proof.
  intros H. unfold int32. rewrite Z.mod_small by lia. lia.
Qed.

Lemma wg_Add_counter (c d : Z) : 0 <= c + d < 2 ^ 31 -> wg_Add c d = Returns (c + d).
Proof.
  intros H. unfold wg_Add. rewrite int32_small by lia.
  replace (c + d <? 0) with false by (symmetry; apply Z.ltb_ge; lia).
  reflexivity.
Qed.

Lemma wg_Add_negative (c d : Z) :
  - 2 ^ 31 <= c + d < 0 -> wg_Add c d = Panics "sync: negative WaitGroup counter".
Proof.
  intros H. unfold wg_Add. rewrite int32_small by lia.
  replace (c + d <? 0) with true by (symmetry; apply Z.ltb_lt; lia).
  reflexivity.
Qed.

(** As many goroutines as the counter allows can call [Done]; one more
    makes it negative. *)
Lemma wg_Done_counter (n : nat) (c : Z) :
  Z.of_nat n <= c < 2 ^ 31 -> wg_Done n c = Returns (c - Z.of_nat n).
Proof.
  revert c. induction n as [|n IH]; intros c H.
  - simpl. f_equal. lia.
  - cbn [wg_Done]. rewrite wg_Add_counter by lia. cbn [bind].
    rewrite IH by lia. f_equal. lia.
Qed.

Lemma wg_Done_negative (n : nat) (c : Z) :
  0 <= c < Z.of_nat n -> c < 2 ^ 31 ->
  wg_Done n c = Panics "sync: negative WaitGroup counter".
Proof.
  revert c. induction n as [|n IH]; intros c H Hc; [lia|].
  cbn [wg_Done]. destruct (Z.eq_dec c 0) as [-> | Hne].
  - reflexivity.
  - rewrite wg_Add_counter by lia. cbn [bind]. apply IH; lia.
Qed.

Lemma cdiv_le_mono (a b t : Z) : 0 < t -> a <= b -> cdiv a t <= cdiv b t.
Proof. intros Ht Hab. unfold cdiv. apply Z.div_le_mono; lia. Qed.

End WaitGroupFacts.
(** * Lists of cells *)

Section Cells.

Context {P : Platform} {I : Imaging}.

Lemma upto_length (n : Z) : List.length (upto n) = Z.to_nat n.
Proof. unfold upto. rewrite length_map, length_seq. reflexivity. Qed.

Lemma upto_In (n i : Z) : In i (upto n) <-> 0 <= i < n.
Proof.
  unfold upto. rewrite in_map_iff. split.
  - intros (k & <- & Hk). apply in_seq in Hk. lia.
  - intros Hi. exists (Z.to_nat i). split; [lia|]. apply in_seq. lia.
Qed.

Lemma upto_NoDup (n : Z) : NoDup (upto n).
Proof.
  unfold upto. apply NoDup_map_NoDup_ForallPairs; [|apply seq_NoDup].
  intros a b _ _ H. apply Nat2Z.inj. exact H.
Qed.

Lemma map_flat_map {A B C : Type} (f : B -> C) (g : A -> list B) (l : list A) :
  map f (flat_map g l) = flat_map (fun a => map f (g a)) l.
Proof.
  induction l as [|a l IH]; [reflexivity|].
  cbn [flat_map]. rewrite map_app, IH. reflexivity.
Qed.

(** Pieces without repetition that share nothing make a list without
    repetition. *)
Lemma NoDup_flat_map {A B : Type} (f : A -> list B) (l : list A) :
  NoDup l ->
  (forall a, In a l -> NoDup (f a)) ->
  (forall a b x, In a l -> In b l -> In x (f a) -> In x (f b) -> a = b) ->
  NoDup (flat_map f l).
Proof.
  induction l as [|a l IH]; intros Hl Hf Hd; [constructor|].
  cbn [flat_map]. inversion Hl as [|a' l' Ha Hl']; subst.
  apply NoDup_app.
  - apply Hf. left. reflexivity.
  - apply IH; [exact Hl'| |].
    + intros b Hb. apply Hf. right. exact Hb.
    + intros b c x Hb Hc. apply Hd; right; assumption.
  - intros x Hx Hx'. apply in_flat_map in Hx'. destruct Hx' as (b & Hb & Hxb).
    apply Ha. rewrite (Hd a b x); [exact Hb|left; reflexivity|right; exact Hb| |]; assumption.
Qed.

Lemma level_tasks_length (l : Z) (o : Option) (m : NRGBA) (cols rows : Z) :
  List.length (level_tasks l o m cols rows) = (Z.to_nat cols * Z.to_nat rows)%nat.
Proof.
  unfold level_tasks. rewrite <- (upto_length cols).
  induction (upto cols) as [|c cs IH]; [reflexivity|].
  cbn [flat_map List.length]. rewrite length_app, IH, length_map, upto_length. lia.
Qed.

(** The tasks of a level are those of the cells of its grid, each once. *)
Lemma level_tasks_cells (l : Z) (o : Option) (m : NRGBA) (cols rows : Z) :
  map cell (level_tasks l o m cols rows) = grid_cells l cols rows.
Proof.
  unfold level_tasks, grid_cells. rewrite map_flat_map.
  apply flat_map_ext. intros col. rewrite map_map. reflexivity.
Qed.

Lemma grid_cells_In (l cols rows l' col row : Z) :
  In (l', col, row) (grid_cells l cols rows) <->
  l' = l /\ 0 <= col < cols /\ 0 <= row < rows.
Proof.
  unfold grid_cells. rewrite in_flat_map. split.
  - intros (c & Hc & H). apply in_map_iff in H. destruct H as (r & E & Hr).
    injection E as <- <- <-. apply upto_In in Hc. apply upto_In in Hr.
    split; [reflexivity|]. split; assumption.
  - intros (-> & Hc & Hr). exists col. split; [apply upto_In; exact Hc|].
    apply in_map_iff. exists row. split; [reflexivity|]. apply upto_In. exact Hr.
Qed.

Lemma grid_cells_NoDup (l cols rows : Z) : NoDup (grid_cells l cols rows).
Proof.
  unfold grid_cells. apply NoDup_flat_map.
  - apply upto_NoDup.
  - intros col _. apply NoDup_map_NoDup_ForallPairs; [|apply upto_NoDup].
    intros a b _ _ H. injection H as H. exact H.
  - intros a b x _ _ Ha Hb.
    apply in_map_iff in Ha. destruct Ha as (r & <- & _).
    apply in_map_iff in Hb. destruct Hb as (r' & E & _).
    injection E as E _. symmetry. exact E.
Qed.

End Cells.

Section GenerateFacts.

Context {P : Platform} {I : Imaging}.

Lemma transition_fields (o : Option) (m : NRGBA) :
  let o' := fst (transition o m) in
  DirPath o' = DirPath o /\ OptSaver o' = OptSaver o /\ Format o' = Format o
  /\ Overlap o' = Overlap o /\ TileSize o' = TileSize o
  /\ (Width o', Height o') = downsample (Width o, Height o).
Proof. unfold transition, downsample. simpl. repeat split. Qed.

Lemma descend_fields (n : nat) (o : Option) (m : NRGBA) :
  let o' := fst (descend n o m) in
  DirPath o' = DirPath o /\ OptSaver o' = OptSaver o /\ Format o' = Format o
  /\ Overlap o' = Overlap o /\ TileSize o' = TileSize o
  /\ (Width o', Height o') = Nat.iter n downsample (Width o, Height o).
Proof.
  induction n as [|n IH].
  - simpl. repeat split.
  - rewrite descend_S. cbv zeta in IH |- *.
    destruct (descend n o m) as [o1 m1]. simpl fst in IH.
    destruct IH as (H1 & H2 & H3 & H4 & H5 & H6).
    destruct (transition_fields o1 m1) as (T1 & T2 & T3 & T4 & T5 & T6).
    rewrite T1, T2, T3, T4, T5, T6, H1, H2, H3, H4, H5, H6.
    repeat split.
Qed.

(** A call of [Generate] that returns has made as many passes as there
    are levels, one more than the level [GetMaxLevel] gives, and what it
    leaves is what [descend] and [tasks_at] describe. *)
Lemma Generate_Some (fuel : nat) (m : NRGBA) (o : Option) (out : Outcome) :
  Generate fuel m o = Some (Returns out) ->
  let top := GetMaxLevel (Width o) (Height o) in
  let n := Z.to_nat top in
  (n < fuel)%nat
  /\ returned out = None
  /\ opt_after out = fst (descend (S n) o m)
  /\ started out = flat_map (tasks_at top o m) (seq 0 (S n)).
Proof.
  intros H top n.
  pose proof (GetMaxLevel_range (Width o) (Height o)) as Hr. fold top in Hr.
  unfold Generate in H. fold top in H.
  set (st0 := {| level := top; opt := o; tm := m; wg := 0; tasks := [];
                 running := 0; raised := 0 |}) in H.
  destruct (walk fuel st0) as [e|] eqn:E; [|discriminate H].
  injection H as H.
  apply bind_Returns in H. destruct H as (st & -> & H).
  apply bind_Returns in H. destruct H as (c & _ & H).
  apply bind_Returns in H. destruct H as (r & _ & H).
  injection H as <-.
  destruct (walk_from n fuel st0 st) as (Hf & _ & Hd & Ht).
  { unfold n. simpl. rewrite Z2Nat.id; lia. }
  { unfold n. rewrite Z2Nat.id; lia. }
  { exact E. }
  split; [exact Hf|]. split; [reflexivity|]. split.
  - simpl. change (opt st) with (fst (opt st, tm st)). rewrite Hd. reflexivity.
  - simpl. rewrite Ht. reflexivity.
Qed.

(** Every task carries the directory, the saver and the format of the
    option and the level it was started at. *)
Lemma level_tasks_fields (l : Z) (o : Option) (m : NRGBA) (cols rows : Z) (t : Task) :
  In t (level_tasks l o m cols rows) ->
  t_dirPath t = DirPath o /\ t_saver t = OptSaver o /\ t_format t = Format o
  /\ t_level t = l /\ 0 <= t_col t < cols /\ 0 <= t_row t < rows.
Proof.
  unfold level_tasks. intros H.
  apply in_flat_map in H. destruct H as (col & Hcol & H).
  apply in_map_iff in H. destruct H as (row & <- & Hrow).
  unfold upto in Hcol, Hrow.
  apply in_map_iff in Hcol. destruct Hcol as (c & <- & Hc).
  apply in_map_iff in Hrow. destruct Hrow as (r & <- & Hr).
  apply in_seq in Hc. apply in_seq in Hr. simpl.
  repeat split; lia.
Qed.

Lemma tasks_at_fields (top : Z) (o : Option) (m : NRGBA) (n : nat) (t : Task) :
  In t (tasks_at top o m n) ->
  t_dirPath t = DirPath o /\ t_saver t = OptSaver o /\ t_format t = Format o
  /\ t_level t = top - Z.of_nat n.
Proof.
  unfold tasks_at. intros H.
  pose proof (descend_fields n o m) as Hf. cbv zeta in Hf.
  destruct (descend n o m) as [o1 m1]. simpl fst in Hf.
  destruct (GetLevelGrids _ _ _ _) as [cols rows].
  apply level_tasks_fields in H.
  destruct Hf as (H1 & H2 & H3 & _). destruct H as (T1 & T2 & T3 & T4 & _).
  rewrite T1, T2, T3, T4, H1, H2, H3. repeat split.
Qed.

(** [SaveTile] on a format that is neither of the two: nothing is encoded
    and the saver is called with an empty buffer. *)
Lemma SaveTile_other_format (dirPath : string) (saver : Saver) (l col row : Z)
  (format : ImageFormat) (m : NRGBA) :
  format <> JPEG -> format <> PNG ->
  fst (SaveTile dirPath saver l col row format m) =
    [(tile_path dirPath l col row format, [])]
  /\ snd (SaveTile dirPath saver l col row format m) =
       SaveFile saver (tile_path dirPath l col row format) [].
Proof.
  intros Hj Hp. unfold SaveTile.
  apply String.eqb_neq in Hj. apply String.eqb_neq in Hp. rewrite Hj, Hp.
  destruct (SaveFile saver _ _); split; reflexivity.
Qed.

Lemma iter_downsample (n : nat) (w h : Z) :
  Nat.iter n downsample (w, h) = (Nat.iter n halve w, Nat.iter n halve h).
Proof.
  induction n as [|n IH]; [reflexivity|].
  simpl. rewrite IH. reflexivity.
Qed.

Lemma cdiv_2_bounds (n : Z) : 0 < n -> 0 < cdiv n 2 <= n /\ 2 * cdiv n 2 - 1 <= n <= 2 * cdiv n 2.
Proof.
  intros Hn. pose proof (cdiv_spec n 2 ltac:(lia)). lia.
Qed.

Lemma exact_uint_halve (n : Z) : exact_uint n -> exact_uint (halve n) /\ halve n = cdiv n 2.
Proof.
  intros H. rewrite halve_cdiv by assumption.
  destruct H as [H1 H2]. pose proof (cdiv_2_bounds n ltac:(lia)).
  split; [|reflexivity]. split; lia.
Qed.


End GenerateFacts.


(** * Sizes of the levels *)

Section LevelSizes.

Context {P : Platform} {I : Imaging}.

Lemma cdiv_cdiv (n a b : Z) : 0 < a -> 0 < b -> cdiv (cdiv n a) b = cdiv n (a * b).
Proof.
  intros Ha Hb. symmetry. apply cdiv_unique; [lia|].
  pose proof (cdiv_spec n a Ha) as H1.
  pose proof (cdiv_spec (cdiv n a) b Hb) as H2.
  set (c := cdiv n a) in *. set (d := cdiv c b) in *.
  split.
  - assert ((d - 1) * b <= c - 1) by lia.
    assert ((d - 1) * b * a <= (c - 1) * a) by (apply Z.mul_le_mono_nonneg_r; lia).
    lia.
  - assert (c * a <= d * b * a) by (apply Z.mul_le_mono_nonneg_r; lia).
    lia.
Qed.

Lemma cdiv_pos (n b : Z) : 0 < n -> 0 < b -> 0 < cdiv n b <= n.
Proof.
  intros Hn Hb. pose proof (cdiv_spec n b Hb) as H.
  split; [nia|].
  destruct (Z_le_gt_dec (cdiv n b) n); [assumption|].
  assert (n <= cdiv n b - 1) by lia.
  assert (n * b <= (cdiv n b - 1) * b) by (apply Z.mul_le_mono_nonneg_r; lia).
  nia.
Qed.

Lemma exact_uint_cdiv (n b : Z) : exact_uint n -> 0 < b -> exact_uint (cdiv n b).
Proof.
  intros [H1 H2] Hb. pose proof (cdiv_pos n b ltac:(lia) Hb). split; lia.
Qed.

Lemma iter_halve_cdiv (k : nat) (n : Z) :
  exact_uint n -> Nat.iter k halve n = cdiv n (2 ^ Z.of_nat k).
Proof.
  intros Hn. induction k as [|k IH].
  - simpl. unfold cdiv. rewrite Z.div_1_r. lia.
  - rewrite Nat.iter_succ, IH.
    assert (Hp : 0 < 2 ^ Z.of_nat k) by (apply Z.pow_pos_nonneg; lia).
    rewrite halve_cdiv by (apply exact_uint_cdiv; assumption).
    rewrite cdiv_cdiv by lia.
    rewrite Nat2Z.inj_succ, Z.pow_succ_r by lia.
    f_equal. lia.
Qed.

End LevelSizes.

(** * Goroutines that fit the counter *)

Section SteadyFacts.

Context {P : Platform} {I : Imaging}.

Lemma pow31_int : 2 ^ 31 <= 2 ^ (uint_bits - 1).
Proof. destruct uint_bits_cases as [-> | ->]; simpl; lia. Qed.

Lemma steady_level (st : Walker) : steady st -> level st < 2 ^ 31.
Proof.
  intros (Hw & Hh & Hts & Hl & Hwg & Hb).
  destruct Hw as [Hw1 Hw2]. destruct Hh as [Hh1 Hh2].
  pose proof (cdiv_pos (Width (opt st)) (TileSize (opt st)) ltac:(lia) ltac:(lia)) as Hc.
  pose proof (cdiv_pos (Height (opt st)) (TileSize (opt st)) ltac:(lia) ltac:(lia)) as Hr.
  set (cols := cdiv (Width (opt st)) (TileSize (opt st))) in *.
  set (rows := cdiv (Height (opt st)) (TileSize (opt st))) in *.
  assert (HK : 1 <= cols * rows) by nia.
  set (K := cols * rows) in *.
  assert ((level st + 1) * 1 <= (level st + 1) * K)
    by (apply Z.mul_le_mono_nonneg_l; lia).
  lia.
Qed.

(** In a steady state the pass of the loop gets to its end: the counter
    holds the goroutines running, [wg.Add] is given the number of tasks it
    is about to start, and the state is steady for the level below. *)
Lemma level_body_steady (st : Walker) :
  steady st ->
  exists st',
    level_body st = Returns st'
    /\ wg st' = Z.of_nat (running st')
    /\ Z.of_nat (running st') < 2 ^ 31
    /\ (0 < level st -> steady (with_level st' (usub (level st') 1))).
Proof.
  intros (Hw & Hh & Hts & Hl & Hwg & Hb).
  pose proof pow31_int as H31. pose proof half_modulus as Hm.
  set (cols := cdiv (Width (opt st)) (TileSize (opt st))) in *.
  set (rows := cdiv (Height (opt st)) (TileSize (opt st))) in *.
  destruct (Hw) as [Hw1 Hw2]. destruct (Hh) as [Hh1 Hh2].
  pose proof (cdiv_pos (Width (opt st)) (TileSize (opt st)) ltac:(lia) ltac:(lia)) as Hc.
  pose proof (cdiv_pos (Height (opt st)) (TileSize (opt st)) ltac:(lia) ltac:(lia)) as Hr.
  fold cols in Hc. fold rows in Hr.
  assert (HK : 1 <= cols * rows) by nia.
  assert (HLK : cols * rows + level st * (cols * rows) = (level st + 1) * (cols * rows)) by ring.
  assert (HLK0 : 0 <= level st * (cols * rows)) by (apply Z.mul_nonneg_nonneg; lia).
  set (K := cols * rows) in *.
  destruct (exact_uint_halve (Width (opt st)) Hw) as [Hw' Ew].
  destruct (exact_uint_halve (Height (opt st)) Hh) as [Hh' Eh].
  unfold level_body. rewrite GetLevelGrids_cdiv by assumption. fold cols rows.
  set (n := Nat.min (scheduler (Some (level st)) (running st)) (running st)).
  assert (Hn : (n <= running st)%nat) by apply Nat.le_min_r.
  rewrite wg_Done_counter by lia. cbn [bind].
  assert (Hint : int (umul cols rows) = K).
  { unfold umul. fold K. rewrite wrap_small by lia. apply int_small. lia. }
  rewrite Hint. rewrite wg_Add_counter by lia. cbn [bind].
  eexists. split; [reflexivity|].
  cbn [wg running level opt with_size with_level Width Height TileSize].
  rewrite level_tasks_length.
  assert (Hrun : Z.of_nat (running st - n + Z.to_nat cols * Z.to_nat rows)
                 = wg st - Z.of_nat n + K).
  { rewrite Nat2Z.inj_add, Nat2Z.inj_sub, Nat2Z.inj_mul by exact Hn.
    rewrite !Z2Nat.id by lia. unfold K. lia. }
  split; [symmetry; exact Hrun|]. split; [lia|].
  intros Hpos. unfold steady.
  cbn [wg running level opt with_size with_level Width Height TileSize].
  rewrite Hrun.
  assert (Hlev : usub (level st) 1 = level st - 1).
  { unfold usub. apply wrap_small. nia. }
  rewrite Hlev.
  split; [exact Hw'|]. split; [exact Hh'|]. split; [exact Hts|].
  split; [lia|]. split; [reflexivity|].
  rewrite Ew, Eh.
  pose proof (cdiv_pos (Width (opt st)) 2 ltac:(lia) ltac:(lia)) as Hw2'.
  pose proof (cdiv_pos (Height (opt st)) 2 ltac:(lia) ltac:(lia)) as Hh2'.
  pose proof (cdiv_le_mono (cdiv (Width (opt st)) 2) (Width (opt st)) (TileSize (opt st))
                ltac:(lia) ltac:(lia)) as Hc'.
  pose proof (cdiv_le_mono (cdiv (Height (opt st)) 2) (Height (opt st)) (TileSize (opt st))
                ltac:(lia) ltac:(lia)) as Hr'.
  fold cols in Hc'. fold rows in Hr'.
  pose proof (cdiv_pos (cdiv (Width (opt st)) 2) (TileSize (opt st))
                ltac:(lia) ltac:(lia)) as Hc2.
  pose proof (cdiv_pos (cdiv (Height (opt st)) 2) (TileSize (opt st))
                ltac:(lia) ltac:(lia)) as Hr2.
  set (cols' := cdiv (cdiv (Width (opt st)) 2) (TileSize (opt st))) in *.
  set (rows' := cdiv (cdiv (Height (opt st)) 2) (TileSize (opt st))) in *.
  assert (HK' : cols' * rows' <= K) by (unfold K; apply Z.mul_le_mono_nonneg; lia).
  assert (level st * (cols' * rows') <= level st * K)
    by (apply Z.mul_le_mono_nonneg_l; lia).
  replace (level st - 1 + 1) with (level st) by lia. lia.
Qed.

(** From a steady state at level [k] the loop gets to its end, with
    [k + 1] passes and no fewer. *)
Lemma walk_steady (k : nat) (st : Walker) :
  steady st -> level st = Z.of_nat k ->
  walk k st = None
  /\ exists st',
       walk (S k) st = Some (Returns st')
       /\ wg st' = Z.of_nat (running st')
       /\ Z.of_nat (running st') < 2 ^ 31.
Proof.
  revert st. induction k as [|k IH]; intros st Hs Hl.
  - split; [reflexivity|].
    destruct (level_body_steady st Hs) as (st1 & E & Hwg & Hr & _).
    exists st1. split; [|split; assumption].
    rewrite walk_S, Hl, E. rewrite (level_body_level st st1 E), Hl. reflexivity.
  - destruct (level_body_steady st Hs) as (st1 & E & _ & _ & Hnext).
    specialize (Hnext ltac:(lia)).
    set (st2 := with_level st1 (usub (level st1) 1)) in *.
    assert (Hl2 : level st2 = Z.of_nat k).
    { change (level st2) with (usub (level st1) 1).
      rewrite (level_body_level st st1 E), Hl. unfold usub.
      pose proof (steady_level st Hs) as Hlt. pose proof pow31_int.
      pose proof half_modulus.
      rewrite wrap_small by lia. lia. }
    destruct (IH st2 Hnext Hl2) as (Hnone & st' & Hw & Hwg & Hr).
    assert (Hstep : forall f, walk (S f) st = walk f st2).
    { intros f. rewrite walk_S, Hl, E.
      rewrite (level_body_level st st1 E), Hl.
      replace (0 <=? Z.of_nat (S k)) with true by (symmetry; apply Z.leb_le; lia).
      replace (Z.of_nat (S k) =? 0) with false by (symmetry; apply Z.eqb_neq; lia).
      unfold st2. rewrite (level_body_level st st1 E), Hl. reflexivity. }
    split; [rewrite Hstep; exact Hnone|].
    exists st'. split; [rewrite Hstep; exact Hw|]. split; assumption.
Qed.

End SteadyFacts.

(** * The tasks of a run *)

Section RunFacts.

Context {P : Platform} {I : Imaging}.

(** Where the dimensions are held exactly, the tasks of the level [j]
    steps below the top are the cells of the grid of that level: the
    dimensions divided by [2 ^ j] and then by the tile size, rounded up. *)
Lemma tasks_at_grid (top : Z) (o : Option) (m : NRGBA) (j : nat) :
  exact_uint (Width o) -> exact_uint (Height o) -> 0 < TileSize o < 2 ^ 53 ->
  map cell (tasks_at top o m j) =
    grid_cells (top - Z.of_nat j)
      (cdiv (cdiv (Width o) (2 ^ Z.of_nat j)) (TileSize o))
      (cdiv (cdiv (Height o) (2 ^ Z.of_nat j)) (TileSize o)).
Proof.
  intros Hw Hh Hts. unfold tasks_at.
  pose proof (descend_fields j o m) as Hf. cbv zeta in Hf.
  destruct (descend j o m) as [o1 m1]. simpl fst in Hf.
  destruct Hf as (_ & _ & _ & _ & Ht & Hwh).
  rewrite iter_downsample in Hwh. injection Hwh as Hw1 Hh1.
  rewrite iter_halve_cdiv in Hw1, Hh1 by assumption.
  assert (Hp : 0 < 2 ^ Z.of_nat j) by (apply Z.pow_pos_nonneg; lia).
  rewrite GetLevelGrids_cdiv.
  - rewrite level_tasks_cells, Hw1, Hh1, Ht. reflexivity.
  - rewrite Hw1. apply exact_uint_cdiv; assumption.
  - rewrite Hh1. apply exact_uint_cdiv; assumption.
  - rewrite Ht. exact Hts.
Qed.

(** The tasks of all the levels: no cell twice, and the cells of the grid
    of every level from [top] down to 0. *)
Lemma started_cells (top : Z) (o : Option) (m : NRGBA) (l : list Task) :
  0 <= top ->
  exact_uint (Width o) -> exact_uint (Height o) -> 0 < TileSize o < 2 ^ 53 ->
  l = flat_map (tasks_at top o m) (seq 0 (S (Z.to_nat top))) ->
  NoDup (map cell l)
  /\ forall lv col row,
       In (lv, col, row) (map cell l) <->
       0 <= lv <= top
       /\ 0 <= col < cdiv (cdiv (Width o) (2 ^ (top - lv))) (TileSize o)
       /\ 0 <= row < cdiv (cdiv (Height o) (2 ^ (top - lv))) (TileSize o).
Proof.
  intros Htop Hw Hh Hts ->. rewrite map_flat_map.
  assert (E : forall j, map cell (tasks_at top o m j) =
                grid_cells (top - Z.of_nat j)
                  (cdiv (cdiv (Width o) (2 ^ Z.of_nat j)) (TileSize o))
                  (cdiv (cdiv (Height o) (2 ^ Z.of_nat j)) (TileSize o)))
    by (intros j; apply tasks_at_grid; assumption).
  split.
  - apply NoDup_flat_map.
    + apply seq_NoDup.
    + intros j _. rewrite E. apply grid_cells_NoDup.
    + intros a b [[lv col] row] _ _ Ha Hb. rewrite E in Ha, Hb.
      apply grid_cells_In in Ha. apply grid_cells_In in Hb. lia.
  - intros lv col row. rewrite in_flat_map. split.
    + intros (j & Hj & H). rewrite E in H. apply grid_cells_In in H.
      apply in_seq in Hj. destruct H as (-> & Hc & Hr).
      replace (top - (top - Z.of_nat j)) with (Z.of_nat j) by lia.
      split; [lia|]. split; assumption.
    + intros (Hlv & Hc & Hr). exists (Z.to_nat (top - lv)).
      split; [apply in_seq; lia|]. rewrite E. apply grid_cells_In.
      rewrite Z2Nat.id by lia. split; [lia|]. split; assumption.
Qed.

(** When the goroutines fit the counter of the wait group, the call
    returns, after one pass per level, with no goroutine left running,
    whatever the scheduler does. *)
Lemma Generate_within_counter (m : NRGBA) (o : Option) :
  let top := GetMaxLevel (Width o) (Height o) in
  let n := Z.to_nat top in
  exact_uint (Width o) -> exact_uint (Height o) -> 0 < TileSize o < 2 ^ 53 ->
  (top + 1) * (cdiv (Width o) (TileSize o) * cdiv (Height o) (TileSize o)) < 2 ^ 31 ->
  exists out : Outcome,
    (forall fuel, (fuel <= n)%nat -> Generate fuel m o = None)
    /\ (forall fuel, (n < fuel)%nat -> Generate fuel m o = Some (Returns out))
    /\ unfinished out = O.
Proof.
  intros top n Hw Hh Hts Hb.
  pose proof (GetMaxLevel_range (Width o) (Height o)) as Hr. fold top in Hr.
  set (st0 := {| level := top; opt := o; tm := m; wg := 0; tasks := [];
                 running := 0; raised := 0 |}).
  assert (Hs : steady st0).
  { unfold steady, st0. cbn [opt level wg running]. simpl Z.of_nat.
    repeat split; try assumption; try lia; apply Hw || apply Hh. }
  destruct (walk_steady n st0 Hs) as (Hnone & st' & Hwalk & Hwg & Hrun).
  { unfold n. simpl. rewrite Z2Nat.id; lia. }
  set (k := Nat.min (scheduler None (running st')) (running st')).
  assert (Hk : (k <= running st')%nat) by apply Nat.le_min_r.
  exists {| returned := None; opt_after := opt st'; added := raised st';
            started := tasks st'; unfinished := O |}.
  split; [|split; [|reflexivity]].
  - intros fuel Hf. unfold Generate. fold top. fold st0.
    rewrite (walk_short n fuel st0 Hnone Hf). reflexivity.
  - intros fuel Hf. unfold Generate. fold top. fold st0.
    rewrite (walk_enough (S n) fuel st0 _ Hwalk Hf). cbn [bind]. fold k.
    rewrite wg_Done_counter by lia. cbn [bind].
    unfold wg_Wait.
    replace (wg st' - Z.of_nat k <=? Z.of_nat (running st' - k)) with true
      by (symmetry; apply Z.leb_le; lia).
    cbn [bind].
    replace (running st' - k - Z.to_nat (wg st' - Z.of_nat k))%nat with O by lia.
    reflexivity.
Qed.

End RunFacts.
(** * The claims *)

(** C1 (the code departs from it): [ComputeTileRect] does not clamp the
    first column.  For width 200, tile size 256, overlap 1 and a grid of one
    column and one row, the right and the bottom edge of tile (0, 0) are
    [tileSize + overlap = 257], beyond the width and the height of 200. *)
Theorem ComputeTileRect_first_column_unclamped :
  let o := config PNG accepting 1 256 200 200 in
  GetLevelGrids (P := go64) 0 (Width o) (Height o) (TileSize o) = (1, 1)
  /\ ComputeTileRect (P := go64) o 0 0 1 1 =
       {| image.Min := {| image.X := 0; image.Y := 0 |};
          image.Max := {| image.X := 257; image.Y := 257 |} |}
  /\ Width o = 200 /\ Height o = 200.
Proof. vm_compute. repeat split. Qed.

(** C2 (the code departs from it): when every tile fails to be stored,
    [Generate] still returns nil.  On a 2 x 2 picture with tile size 1 the
    five tasks of levels 1 and 0 all return the saver's error, and the
    result of the call is nil. *)
Theorem Generate_drops_tile_errors :
  option_map
    (exit_map (fun out => (returned out, map (fun t => snd (run t)) (started out))))
    (Generate (P := go64) (I := bounds_only) 2 (picture 2 2) (config PNG refusing 0 1 2 2))
  = Some (Returns
            (None,
             [Some "no space left on device"; Some "no space left on device";
              Some "no space left on device"; Some "no space left on device";
              Some "no space left on device"])).
Proof. vm_compute. reflexivity. Qed.

(** C3 (the code departs from it): on a level of one column and one row
    narrower than a tile the core of the only tile is not the canvas.  For
    200 x 200 with tile size 256 and overlap 1 the grid is 1 x 1, the core
    of tile (0, 0) is its whole rectangle of 257 x 257, and the core area
    is 66049 where the canvas has 40000 pixels. *)
Theorem core_area_single_tile_level :
  let o := config PNG accepting 1 256 200 200 in
  GetLevelGrids (P := go64) 0 (Width o) (Height o) (TileSize o) = (1, 1)
  /\ core_rect (P := go64) o 0 0 1 1 =
       {| image.Min := {| image.X := 0; image.Y := 0 |};
          image.Max := {| image.X := 257; image.Y := 257 |} |}
  /\ core_area (P := go64) o = 66049
  /\ Width o * Height o = 40000.
Proof. vm_compute. repeat split. Qed.




(** C5, counterexample: [float64(2^53 + 1)] is [2^53], whose logarithm is
    53 exactly, where the ceiling of the logarithm of [2^53 + 1] is 54. *)
Lemma GetMaxLevel_above_2p53 :
  GetMaxLevel (P := go64) (2 ^ 53 + 1) 1 = 53
  /\ Z.log2_up (Z.max (2 ^ 53 + 1) 1) = 54.
Proof. vm_compute. split; reflexivity. Qed.

(** C5, as amended: for positive dimensions below [2^53], where [math.Log2]
    is accurate at the larger one (it always is on a power of two),
    [GetMaxLevel] is the ceiling of the base-2 logarithm of the larger
    dimension. *)
Theorem GetMaxLevel_log2_up {P : Platform} (width height : Z) :
  0 < width < 2 ^ 53 -> 0 < height < 2 ^ 53 ->
  Log2_accurate_at (F64.of_Z (Z.max width height)) = true ->
  GetMaxLevel width height = Z.log2_up (Z.max width height).
Proof. apply GetMaxLevel_of_max. Qed.

(** [GetMaxLevel_log2_up] at a concrete input, with its hypotheses checked there. *)
Lemma GetMaxLevel_log2_up_witness :
  GetMaxLevel (P := go64) 257 256 = Z.log2_up (Z.max 257 256).
Proof.
  apply (GetMaxLevel_log2_up (P := go64) 257 256); vm_compute; repeat split;
    intros; discriminate.
Defined.

(** C6, counterexample: on a 64-bit platform the width [2^53 + 1] with tile
    size 1 gives [2^53] columns, one fewer than the ceiling of the
    quotient. *)
Lemma GetLevelGrids_above_2p53 :
  GetLevelGrids (P := go64) 0 (2 ^ 53 + 1) 1 1 = (2 ^ 53, 1)
  /\ cdiv (2 ^ 53 + 1) 1 = 2 ^ 53 + 1.
Proof. vm_compute. split; reflexivity. Qed.

(** C6, as amended: for positive width, height and tile size below [2^53]
    (and within [uint]), [GetLevelGrids] returns the ceilings of
    [width / tileSize] and [height / tileSize]. *)
Theorem GetLevelGrids_ceil {P : Platform} (level width height tileSize : Z) :
  exact_uint width -> exact_uint height -> 0 < tileSize < 2 ^ 53 ->
  GetLevelGrids level width height tileSize =
    (cdiv width tileSize, cdiv height tileSize).
Proof. apply GetLevelGrids_cdiv. Qed.

(** [GetLevelGrids_ceil] at a concrete input, with its hypotheses checked there. *)
Lemma GetLevelGrids_ceil_witness :
  GetLevelGrids (P := go64) 9 500 500 256 = (cdiv 500 256, cdiv 500 256).
Proof.
  apply (GetLevelGrids_ceil (P := go64) 9 500 500 256); vm_compute; repeat split;
    intros; discriminate.
Defined.

(** C7, counterexample: with the format "gif", which is neither "jpeg" nor
    "png", [Generate] returns nil on a 1 x 1 picture, having started the
    task of tile (0, 0, 0), and that task calls the saver with the path
    "out/0/0_0.gif" and an empty buffer. *)
Lemma Generate_accepts_unknown_format :
  option_map
    (exit_map (fun out => (returned out, map (fun t => fst (run t)) (started out))))
    (Generate (P := go64) (I := bounds_only) 1 (picture 1 1) (config "gif" accepting 0 1 1 1))
  = Some (Returns (None, [[("out/0/0_0.gif", [])]])).
Proof. vm_compute. reflexivity. Qed.

(** C7, as amended: [Generate] checks nothing, the format no more than
    the rest.  With a format that is neither "jpeg" nor "png", whatever the
    dimensions and the tile size, a call that returns returns nil, and
    every task it has started calls the saver once, with the path of its
    tile and an empty buffer, and returns what the saver returns.  And on
    positive dimensions and tile size whose tiles fit the counter of the
    wait group the call does return, as it does for a known format, and
    has started a task for every cell of the grid of every level, from
    level [GetMaxLevel] down to level 0. *)
Theorem Generate_validates_nothing {P : Platform} {I : Imaging}
  (m : NRGBA) (o : Option) :
  Format o <> JPEG -> Format o <> PNG ->
  let top := GetMaxLevel (Width o) (Height o) in
  (forall fuel out,
     Generate fuel m o = Some (Returns out) ->
     returned out = None
     /\ forall t, In t (started out) ->
          let path := tile_path (DirPath o) (t_level t) (t_col t) (t_row t) (Format o) in
          run t = ([(path, [])], SaveFile (OptSaver o) path []))
  /\ (exact_uint (Width o) -> exact_uint (Height o) -> 0 < TileSize o < 2 ^ 53 ->
      (top + 1) * (cdiv (Width o) (TileSize o) * cdiv (Height o) (TileSize o)) < 2 ^ 31 ->
      exists out : Outcome,
        Generate (S (Z.to_nat top)) m o = Some (Returns out)
        /\ forall l col row,
             0 <= l <= top ->
             0 <= col < cdiv (cdiv (Width o) (2 ^ (top - l))) (TileSize o) ->
             0 <= row < cdiv (cdiv (Height o) (2 ^ (top - l))) (TileSize o) ->
             exists t, In t (started out) /\ cell t = (l, col, row)).
Proof.
  intros Hj Hp top. split.
  - intros fuel out H.
    destruct (Generate_Some fuel m o out H) as (_ & Hr & _ & Hs).
    split; [exact Hr|]. intros t Ht path. rewrite Hs in Ht.
    apply in_flat_map in Ht. destruct Ht as (n & _ & Ht).
    apply tasks_at_fields in Ht. destruct Ht as (T1 & T2 & T3 & _).
    unfold run. rewrite T1, T2, T3.
    destruct (SaveTile_other_format (DirPath o) (OptSaver o) (t_level t) (t_col t)
                (t_row t) (Format o) (t_m t) Hj Hp) as [E1 E2].
    fold path in E1, E2. rewrite <- E1, <- E2. apply surjective_pairing.
  - intros Hw Hh Hts Hb.
    destruct (Generate_within_counter m o Hw Hh Hts Hb) as (out & _ & Hsome & _).
    fold top in Hsome.
    specialize (Hsome (S (Z.to_nat top)) (Nat.lt_succ_diag_r _)).
    destruct (Generate_Some _ m o out Hsome) as (_ & _ & _ & Hs). fold top in Hs.
    pose proof (GetMaxLevel_range (Width o) (Height o)) as Hrange. fold top in Hrange.
    destruct (started_cells top o m (started out) ltac:(lia) Hw Hh Hts Hs) as [_ Hin].
    exists out. split; [exact Hsome|].
    intros l col row Hl Hc Hrow.
    assert (H : In (l, col, row) (map cell (started out)))
      by (apply Hin; split; [exact Hl|split; assumption]).
    apply in_map_iff in H. destruct H as (t & Ht & Hinn).
    exists t. split; assumption.
Qed.

(** [Generate_validates_nothing] at a concrete input, with its hypotheses
    checked there: a picture of 2 x 2 cut with tile size 1, five tiles on
    two levels. *)
Lemma Generate_validates_nothing_witness :
  let o := config "gif" accepting 0 1 2 2 in
  (forall fuel out,
     Generate (P := go64) (I := bounds_only) fuel (picture 2 2) o = Some (Returns out) ->
     returned out = None
     /\ forall t, In t (started out) ->
          let path := tile_path "out" (t_level t) (t_col t) (t_row t) "gif" in
          run (I := bounds_only) t = ([(path, [])], SaveFile accepting path []))
  /\ exists out : Outcome,
       Generate (P := go64) (I := bounds_only) 2 (picture 2 2) o = Some (Returns out)
       /\ forall l col row,
            0 <= l <= 1 ->
            0 <= col < cdiv (cdiv 2 (2 ^ (1 - l))) 1 ->
            0 <= row < cdiv (cdiv 2 (2 ^ (1 - l))) 1 ->
            exists t, In t (started out) /\ cell t = (l, col, row).
Proof.
  destruct (Generate_validates_nothing (P := go64) (I := bounds_only) (picture 2 2)
              (config "gif" accepting 0 1 2 2)) as [H1 H2];
    [vm_compute; discriminate | vm_compute; discriminate |].
  split; [exact H1|].
  apply H2; vm_compute; repeat split; intros; discriminate.
Defined.

(** C8, counterexample: positive dimensions are not enough.  For a width
    of [2^32 + 1], a height of [2^31] and tile size 1 the level is 33 and
    the grid has [2^32 + 1] columns and [2^31] rows; their product as a
    [uint] is [2^63 + 2^31], which [int] reads as the negative
    [2^31 - 2^63], and [wg.Add] panics on it in the first pass, before any
    task is started. *)
Lemma Generate_panics_on_wrapped_grid :
  let o := config PNG accepting 0 1 (2 ^ 32 + 1) (2 ^ 31) in
  GetMaxLevel (P := go64) (Width o) (Height o) = 33
  /\ GetLevelGrids (P := go64) 33 (Width o) (Height o) (TileSize o) = (2 ^ 32 + 1, 2 ^ 31)
  /\ umul (P := go64) (2 ^ 32 + 1) (2 ^ 31) = 2 ^ 63 + 2 ^ 31
  /\ int (P := go64) (2 ^ 63 + 2 ^ 31) = 2 ^ 31 - 2 ^ 63
  /\ Generate (P := go64) (I := bounds_only) 34 (picture (2 ^ 32 + 1) (2 ^ 31)) o
     = Some (Panics "sync: negative WaitGroup counter").
Proof. vm_compute. repeat split. Qed.

(** C8, as amended: for positive dimensions and tile size that [float64]
    holds exactly, with the tiles of the top level times the number of
    levels below [2^31], the call returns, whatever the scheduler does.
    With [top] the level [GetMaxLevel] returns, the loop makes [top + 1]
    passes and no fewer; the call then returns nil with no goroutine left
    running; the tasks it has started are those of level [top], then of
    level [top - 1], and so on down to level 0; no cell has two tasks, and
    the cells that have one are those of the grid of each level [l] from 0
    to [top], whose sides are the dimensions divided by [2 ^ (top - l)]
    and then by the tile size, rounded up. *)
Theorem Generate_walks_every_level {P : Platform} {I : Imaging}
  (m : NRGBA) (o : Option) :
  let top := GetMaxLevel (Width o) (Height o) in
  let n := Z.to_nat top in
  exact_uint (Width o) -> exact_uint (Height o) -> 0 < TileSize o < 2 ^ 53 ->
  (top + 1) * (cdiv (Width o) (TileSize o) * cdiv (Height o) (TileSize o)) < 2 ^ 31 ->
  exists out : Outcome,
    (forall fuel, (fuel <= n)%nat -> Generate fuel m o = None)
    /\ (forall fuel, (n < fuel)%nat -> Generate fuel m o = Some (Returns out))
    /\ returned out = None
    /\ unfinished out = O
    /\ started out = flat_map (tasks_at top o m) (seq 0 (S n))
    /\ (forall j t, In t (tasks_at top o m j) -> t_level t = top - Z.of_nat j)
    /\ NoDup (map cell (started out))
    /\ (forall l col row,
          In (l, col, row) (map cell (started out)) <->
          0 <= l <= top
          /\ 0 <= col < cdiv (cdiv (Width o) (2 ^ (top - l))) (TileSize o)
          /\ 0 <= row < cdiv (cdiv (Height o) (2 ^ (top - l))) (TileSize o)).
Proof.
  intros top n Hw Hh Hts Hb.
  destruct (Generate_within_counter m o Hw Hh Hts Hb) as (out & Hnone & Hsome & Hu).
  fold top in Hnone, Hsome. fold n in Hnone, Hsome.
  destruct (Generate_Some _ m o out (Hsome (S n) (Nat.lt_succ_diag_r _)))
    as (_ & Hr & _ & Hs).
  fold top in Hs. fold n in Hs.
  pose proof (GetMaxLevel_range (Width o) (Height o)) as Hrange. fold top in Hrange.
  destruct (started_cells top o m (started out) ltac:(lia) Hw Hh Hts Hs) as [Hnd Hin].
  exists out.
  split; [exact Hnone|]. split; [exact Hsome|]. split; [exact Hr|].
  split; [exact Hu|]. split; [exact Hs|]. split; [|split; [exact Hnd | exact Hin]].
  intros j t Ht. apply tasks_at_fields in Ht. apply Ht.
Qed.

(** [Generate_walks_every_level] at a concrete input, with its hypotheses
    checked there: a picture of 300 x 200 cut with tile size 64, ten
    levels and 35 tiles. *)
Lemma Generate_walks_every_level_witness :
  let o := config PNG accepting 1 64 300 200 in
  let m := picture 300 200 in
  exists out : Outcome,
    (forall fuel, (fuel <= 9)%nat ->
       Generate (P := go64) (I := bounds_only) fuel m o = None)
    /\ (forall fuel, (9 < fuel)%nat ->
         Generate (P := go64) (I := bounds_only) fuel m o = Some (Returns out))
    /\ returned out = None
    /\ unfinished out = O
    /\ started out =
         flat_map (tasks_at (P := go64) (I := bounds_only) 9 o m) (seq 0 10)
    /\ (forall j t, In t (tasks_at (P := go64) (I := bounds_only) 9 o m j) ->
         t_level t = 9 - Z.of_nat j)
    /\ NoDup (map cell (started out))
    /\ (forall l col row,
          In (l, col, row) (map cell (started out)) <->
          0 <= l <= 9
          /\ 0 <= col < cdiv (cdiv 300 (2 ^ (9 - l))) 64
          /\ 0 <= row < cdiv (cdiv 200 (2 ^ (9 - l))) 64).
Proof.
  apply (Generate_walks_every_level (P := go64) (I := bounds_only) (picture 300 200)
           (config PNG accepting 1 64 300 200));
    vm_compute; repeat split; intros; discriminate.
Defined.

(** C9, counterexample: after [Generate] on a 512 x 512 picture the
    caller's option holds width 1 and height 1. *)
Lemma Generate_overwrites_size :
  let o := config PNG accepting 0 256 512 512 in
  (Width o, Height o) = (512, 512)
  /\ option_map (exit_map (fun out => (Width (opt_after out), Height (opt_after out))))
       (Generate (P := go64) (I := bounds_only) 10 (picture 512 512) o)
     = Some (Returns (1, 1)).
Proof. vm_compute. split; reflexivity. Qed.

(** C9, as amended: [Generate] leaves the directory, the saver, the format,
    the overlap and the tile size of the option as they were; the width and
    the height it overwrites, once per level, with their halves rounded
    up. *)
Theorem Generate_option_after {P : Platform} {I : Imaging}
  (fuel : nat) (m : NRGBA) (o : Option) (out : Outcome) :
  Generate fuel m o = Some (Returns out) ->
  let o' := opt_after out in
  DirPath o' = DirPath o /\ OptSaver o' = OptSaver o /\ Format o' = Format o
  /\ Overlap o' = Overlap o /\ TileSize o' = TileSize o
  /\ (Width o', Height o') =
       Nat.iter (S (Z.to_nat (GetMaxLevel (Width o) (Height o)))) downsample
         (Width o, Height o).
Proof.
  intros H. destruct (Generate_Some fuel m o out H) as (_ & _ & Ho & _).
  cbv zeta. rewrite Ho. apply descend_fields.
Qed.

(** [Generate_option_after] at a concrete input, with its hypotheses checked there. *)
Lemma Generate_option_after_witness :
  let o := config PNG accepting 0 256 512 512 in
  let o' := config PNG accepting 0 256 1 1 in
  DirPath o' = DirPath o /\ OptSaver o' = OptSaver o /\ Format o' = Format o
  /\ Overlap o' = Overlap o /\ TileSize o' = TileSize o
  /\ (Width o', Height o') = Nat.iter 10 (downsample (P := go64)) (512, 512).
Proof.
  apply (Generate_option_after (P := go64) (I := bounds_only) 10 (picture 512 512)
           (config PNG accepting 0 256 512 512)
           {| returned := None; opt_after := config PNG accepting 0 256 1 1;
              added := 13;
              started :=
                flat_map
                  (tasks_at (P := go64) (I := bounds_only) 9
                     (config PNG accepting 0 256 512 512) (picture 512 512))
                  (seq 0 10);
              unfinished := O |}).
  vm_compute. reflexivity.
Defined.

(** C10, counterexample: with tile size 256 and overlap 300 the left and
    the top edge of tile (1, 1) are -44: the unsigned difference
    [2^64 - 44] read as an [int], a negative number and no huge one. *)
Lemma ComputeTileRect_negative_edge :
  let o := config PNG accepting 300 256 600 600 in
  usub (P := go64) (umul (P := go64) 1 (TileSize o)) (Overlap o) = 2 ^ 64 - 44
  /\ image.Min (ComputeTileRect (P := go64) o 1 1 3 3)
     = {| image.X := -44; image.Y := -44 |}.
Proof. vm_compute. split; reflexivity. Qed.

(** C10, as amended: for [col >= 1], whatever the row (and in the same way
    for [row >= 1], whatever the column), the unsigned difference
    [col * tileSize - overlap] is taken modulo [2 ^ uint_bits], and the
    edge is that word read as an [int].  With the product and the overlap
    below the sign bit the edge is the integer [col * tileSize - overlap]
    itself: the difference as it is when [overlap <= col * tileSize]; when
    the overlap is larger, the unsigned difference wraps to
    [2 ^ uint_bits - (overlap - col * tileSize)] and the edge is
    negative. *)
Theorem ComputeTileRect_low_edge {P : Platform} (o : Option)
  (col row maxCol maxRow : Z) :
  0 <= TileSize o -> 0 <= Overlap o < 2 ^ (uint_bits - 1) ->
  let r := ComputeTileRect o col row maxCol maxRow in
  let law (i edge : Z) :=
    0 < i ->
    let d := i * TileSize o - Overlap o in
    usub (umul i (TileSize o)) (Overlap o) = wrap d
    /\ edge = int (wrap d)
    /\ (i * TileSize o < 2 ^ (uint_bits - 1) ->
        edge = d
        /\ (Overlap o <= i * TileSize o -> wrap d = d /\ 0 <= edge)
        /\ (i * TileSize o < Overlap o -> wrap d = modulus + d /\ edge < 0)) in
  law col (image.X (image.Min r)) /\ law row (image.Y (image.Min r)).
Proof.
  intros Hts Hov r law.
  destruct (ComputeTileRect_spans o col row maxCol maxRow) as [HX HY].
  fold r in HX, HY.
  assert (Hlaw : forall i extent maxI,
             law i (fst (tile_span (TileSize o) (Overlap o) extent i maxI))).
  { intros i extent maxI Hi. cbv zeta.
    pose proof half_modulus as Hm.
    assert (0 <= i * TileSize o) by (apply Z.mul_nonneg_nonneg; lia).
    rewrite tile_span_lower by lia.
    assert (E : usub (umul i (TileSize o)) (Overlap o)
                = wrap (i * TileSize o - Overlap o))
      by (unfold usub, umul; apply wrap_wrap_sub).
    split; [exact E|]. split; [reflexivity|].
    intros Hprod. rewrite int_wrap_signed by lia.
    split; [reflexivity|]. split.
    - intros Hle. split; [apply wrap_small|]; lia.
    - intros Hlt. split; [|lia].
      unfold wrap. symmetry. apply Z.mod_unique with (-1); [left|]; lia. }
  split.
  - replace (image.X (image.Min r)) with
      (fst (image.X (image.Min r), image.X (image.Max r))) by reflexivity.
    rewrite HX. apply Hlaw.
  - replace (image.Y (image.Min r)) with
      (fst (image.Y (image.Min r), image.Y (image.Max r))) by reflexivity.
    rewrite HY. apply Hlaw.
Qed.

(** [ComputeTileRect_low_edge] at a concrete input, with its hypotheses
    checked there: the second tile of the first row of a grid of two
    columns and one row, with tile size 256 and overlap 300. *)
Lemma ComputeTileRect_low_edge_witness :
  let o := config PNG accepting 300 256 400 200 in
  let r := ComputeTileRect (P := go64) o 1 0 2 1 in
  let d := 1 * 256 - 300 in
  usub (P := go64) (umul (P := go64) 1 256) 300 = wrap (P := go64) d
  /\ image.X (image.Min r) = int (P := go64) (wrap (P := go64) d)
  /\ image.X (image.Min r) = d
  /\ (300 <= 1 * 256 -> wrap (P := go64) d = d /\ 0 <= image.X (image.Min r))
  /\ (1 * 256 < 300 ->
      wrap (P := go64) d = modulus (P := go64) + d /\ image.X (image.Min r) < 0).
Proof.
  pose proof (ComputeTileRect_low_edge (P := go64)
                (config PNG accepting 300 256 400 200) 1 0 2 1) as H.
  cbv zeta in H.
  destruct H as [(H1 & H2 & H3) _];
    [vm_compute; discriminate
    |vm_compute; split; [discriminate | reflexivity]
    |reflexivity|].
  destruct H3 as (H3 & H4 & H5); [reflexivity|].
  cbv zeta. split; [exact H1|]. split; [exact H2|]. split; [exact H3|].
  split; assumption.
Defined.

(** * Further properties of the geometry *)


(** X1: on every platform, when the larger of two positive dimensions is a
    power of two [2 ^ k] with [k <= 52], [GetMaxLevel] is [k] exactly,
    whatever the platform's logarithm does elsewhere. *)
Theorem GetMaxLevel_power_of_two {P : Platform} (width height k : Z) :
  0 <= k <= 52 -> 0 < width <= 2 ^ k -> 0 < height <= 2 ^ k ->
  Z.max width height = 2 ^ k ->
  GetMaxLevel width height = k.
Proof.
  intros Hk Hw Hh Hmax.
  assert (Hp : 2 ^ k < 2 ^ 53) by (apply Z.pow_lt_mono_r; lia).
  rewrite GetMaxLevel_of_max; try lia.
  - rewrite Hmax. apply Z.log2_up_pow2. lia.
  - rewrite Hmax. apply Log2_accurate_at_pow2. lia.
Qed.

(** [GetMaxLevel_power_of_two] at a concrete input, with its hypotheses checked there. *)
Lemma GetMaxLevel_power_of_two_witness : GetMaxLevel (P := go64) 256 256 = 8.
Proof.
  apply (GetMaxLevel_power_of_two (P := go64) 256 256 8); vm_compute; repeat split;
    intros; discriminate.
Defined.

(** X2: the level transition of [Generate] halves a dimension rounding up:
    for a positive [n] below [2^53] the [float64] expression
    [uint(math.Ceil(float64(n) / 2))] is the integer [(n + 1) / 2], between
    1 and [n]. *)
Theorem halve_is_ceil_half {P : Platform} (n : Z) :
  exact_uint n -> halve n = (n + 1) / 2 /\ 1 <= halve n <= n.
Proof.
  intros Hn. rewrite halve_cdiv by assumption.
  destruct Hn as [Hn _]. pose proof (cdiv_pos n 2 ltac:(lia) ltac:(lia)).
  split; [unfold cdiv; f_equal; lia | lia].
Qed.

(** [halve_is_ceil_half] at a concrete input, with its hypotheses checked there. *)
Lemma halve_is_ceil_half_witness :
  halve (P := go64) 257 = (257 + 1) / 2 /\ 1 <= halve (P := go64) 257 <= 257.
Proof.
  apply (halve_is_ceil_half (P := go64) 257); vm_compute; repeat split;
    intros; discriminate.
Defined.

(** X3: the level [j] transitions below the top has the dimensions
    [ceil(width / 2^j)] by [ceil(height / 2^j)]: that is what the walker
    holds in the option after [j] passes of the loop, for positive
    dimensions below [2^53]. *)
Theorem descend_dimensions {P : Platform} {I : Imaging}
  (j : nat) (o : Option) (m : NRGBA) :
  exact_uint (Width o) -> exact_uint (Height o) ->
  let o' := fst (descend j o m) in
  Width o' = cdiv (Width o) (2 ^ Z.of_nat j)
  /\ Height o' = cdiv (Height o) (2 ^ Z.of_nat j).
Proof.
  intros Hw Hh o'.
  destruct (descend_fields j o m) as (_ & _ & _ & _ & _ & Hwh).
  fold o' in Hwh. rewrite iter_downsample in Hwh.
  rewrite !iter_halve_cdiv in Hwh by assumption.
  injection Hwh as H1 H2. split; assumption.
Qed.

(** [descend_dimensions] at a concrete input, with its hypotheses checked there. *)
Lemma descend_dimensions_witness :
  let o' :=
    fst (descend (P := go64) (I := bounds_only) 3
           (config JPEG accepting 1 256 300 200) (picture 300 200)) in
  Width o' = cdiv 300 (2 ^ Z.of_nat 3) /\ Height o' = cdiv 200 (2 ^ Z.of_nat 3).
Proof.
  apply (descend_dimensions (P := go64) (I := bounds_only) 3
           (config JPEG accepting 1 256 300 200) (picture 300 200));
    vm_compute; repeat split; intros; discriminate.
Defined.



(** * Tiles and cores over a level *)

Section Covering.

Context {P : Platform}.

Lemma cdiv_cell (extent ts x : Z) :
  0 < ts -> 0 <= x < extent ->
  0 <= x / ts < cdiv extent ts
  /\ x / ts * ts <= x < (x / ts + 1) * ts
  /\ (cdiv extent ts - 1) * ts < extent <= cdiv extent ts * ts.
Proof.
  intros Hts Hx.
  pose proof (cdiv_spec extent ts Hts) as Hc.
  pose proof (Z.div_mod x ts ltac:(lia)) as Hd.
  pose proof (Z.mod_pos_bound x ts Hts) as Hm.
  assert (0 <= x / ts) by (apply Z.div_pos; lia).
  split; [|split; [lia | exact Hc]].
  split; [assumption|].
  destruct (Z_lt_le_dec (x / ts) (cdiv extent ts)) as [|Hge]; [assumption|].
  assert (cdiv extent ts * ts <= x / ts * ts) by (apply Z.mul_le_mono_nonneg_r; lia).
  lia.
Qed.

(** Along one axis, the span of cell [x / ts] holds [x]. *)
Lemma span_covers (ts ov extent x : Z) :
  0 < ts -> 0 <= ov <= ts -> 0 <= x < extent ->
  extent + 2 * ts <= 2 ^ (uint_bits - 1) ->
  let n := cdiv extent ts in
  let s := tile_span ts ov extent (x / ts) n in
  0 <= x / ts < n /\ fst s <= x < snd s.
Proof.
  intros Hts Hov Hx Hroom n s.
  destruct (cdiv_cell extent ts x Hts Hx) as (Hi & Hcell & Hn). fold n in Hi, Hn.
  split; [exact Hi|].
  unfold s. rewrite tile_span_plain by lia.
  destruct (Z.eqb_spec (x / ts) 0) as [E | NE]; simpl.
  - rewrite E in Hcell. lia.
  - destruct (Z.eqb_spec (x / ts) (n - 1)); lia.
Qed.

(** The core of a cell when the axis has at least two cells: from the
    cell's own first pixel to the next cell's, or to the end of the
    canvas. *)
Lemma core_span_plain (ts ov extent i : Z) :
  0 < ts -> 0 <= ov <= ts -> 0 < extent ->
  extent + 2 * ts <= 2 ^ (uint_bits - 1) ->
  let n := cdiv extent ts in
  2 <= n -> 0 <= i < n ->
  core_span ts ov extent i n =
    (i * ts, if i =? n - 1 then extent else (i + 1) * ts).
Proof.
  intros Hts Hov Hext Hroom n Hn Hi.
  pose proof (cdiv_spec extent ts Hts) as Hc. fold n in Hc.
  unfold core_span. rewrite tile_span_plain by lia.
  destruct (Z.eqb_spec i 0) as [-> | NE].
  - destruct (Z.eqb_spec 0 (n - 1)); [lia|]. f_equal; lia.
  - destruct (Z.eqb_spec i (n - 1)); f_equal; lia.
Qed.

Lemma sumZ_app (l1 l2 : list Z) : sumZ (l1 ++ l2) = sumZ l1 + sumZ l2.
Proof.
  induction l1 as [|a l1 IH]; simpl; [reflexivity|]. rewrite IH. lia.
Qed.

Lemma sumZ_map_const {A : Type} (f : A -> Z) (c : Z) (l : list A) :
  (forall a, In a l -> f a = c) -> sumZ (map f l) = c * Z.of_nat (List.length l).
Proof.
  induction l as [|a l IH]; intros H.
  - simpl. lia.
  - cbn [map sumZ fold_right List.length]. rewrite Nat2Z.inj_succ.
    rewrite (H a (or_introl eq_refl)).
    fold (sumZ (map f l)). rewrite IH by (intros; apply H; right; assumption). lia.
Qed.

Lemma sumZ_scale {A : Type} (g : A -> Z) (c : Z) (l : list A) :
  sumZ (map (fun b => c * g b) l) = c * sumZ (map g l).
Proof.
  induction l as [|b l IH]; simpl; [lia|].
  fold (sumZ (map (fun b => c * g b) l)). fold (sumZ (map g l)). rewrite IH. lia.
Qed.

Lemma sumZ_product {A B : Type} (f : A -> Z) (g : B -> Z) (la : list A) (lb : list B) :
  sumZ (flat_map (fun a => map (fun b => f a * g b) lb) la) =
    sumZ (map f la) * sumZ (map g lb).
Proof.
  induction la as [|a la IH]; [reflexivity|].
  cbn [flat_map map]. rewrite sumZ_app, IH, sumZ_scale.
  cbn [sumZ fold_right]. fold (sumZ (map f la)). lia.
Qed.

Lemma upto_snoc (n : Z) : 0 < n -> upto n = upto (n - 1) ++ [n - 1].
Proof.
  intros Hn. unfold upto.
  replace (Z.to_nat n) with (S (Z.to_nat (n - 1))) by lia.
  rewrite seq_S, map_app. simpl. f_equal. f_equal. lia.
Qed.

(** The cores of an axis of at least two cells have the length of the
    canvas in total. *)
Lemma core_lengths (ts ov extent : Z) :
  0 < ts -> 0 <= ov <= ts -> 0 < extent ->
  extent + 2 * ts <= 2 ^ (uint_bits - 1) ->
  let n := cdiv extent ts in
  2 <= n ->
  sumZ (map (fun i => snd (core_span ts ov extent i n) - fst (core_span ts ov extent i n))
          (upto n)) = extent.
Proof.
  intros Hts Hov Hext Hroom n Hn.
  pose proof (fun i => core_span_plain ts ov extent i Hts Hov Hext Hroom) as Hcs.
  cbv zeta in Hcs. fold n in Hcs.
  rewrite upto_snoc, map_app, sumZ_app by lia.
  rewrite (sumZ_map_const _ ts).
  - cbn [map sumZ fold_right].
    rewrite (Hcs (n - 1)) by lia.
    rewrite Z.eqb_refl. cbn [fst snd].
    rewrite upto_length. lia.
  - intros i Hi. apply upto_In in Hi.
    rewrite (Hcs i) by lia.
    destruct (Z.eqb_spec i (n - 1)); [lia|]. cbn [fst snd]. lia.
Qed.

Lemma core_rect_spans (o : Option) (col row maxCol maxRow : Z) :
  let r := core_rect o col row maxCol maxRow in
  (image.X (image.Min r), image.X (image.Max r)) =
    core_span (TileSize o) (Overlap o) (Width o) col maxCol
  /\ (image.Y (image.Min r), image.Y (image.Max r)) =
    core_span (TileSize o) (Overlap o) (Height o) row maxRow.
Proof.
  unfold core_rect.
  destruct (core_span (TileSize o) (Overlap o) (Width o) col maxCol).
  destruct (core_span (TileSize o) (Overlap o) (Height o) row maxRow).
  simpl. split; reflexivity.
Qed.

Lemma plain_level_grid (l : Z) (o : Option) :
  plain_level o ->
  GetLevelGrids l (Width o) (Height o) (TileSize o) =
    (cdiv (Width o) (TileSize o), cdiv (Height o) (TileSize o)).
Proof.
  intros (Hw & Hh & Hts & _). apply GetLevelGrids_cdiv; assumption.
Qed.

End Covering.

(** X5: the rectangles of a level leave no gap.  On a level the arithmetic
    does not wrap on, the pixel [(x, y)] of the canvas lies in the
    rectangle [ComputeTileRect] gives for the cell
    [(x / tileSize, y / tileSize)], and that cell is one of the grid
    [GetLevelGrids] returns. *)
Theorem tiles_cover_level {P : Platform} (l : Z) (o : Option) (x y : Z) :
  plain_level o -> 0 <= x < Width o -> 0 <= y < Height o ->
  let cols := fst (GetLevelGrids l (Width o) (Height o) (TileSize o)) in
  let rows := snd (GetLevelGrids l (Width o) (Height o) (TileSize o)) in
  let col := x / TileSize o in
  let row := y / TileSize o in
  0 <= col < cols /\ 0 <= row < rows
  /\ inside (ComputeTileRect o col row cols rows) x y.
Proof.
  intros Hp Hx Hy. rewrite (plain_level_grid l o Hp). cbn [fst snd]. cbv zeta.
  destruct Hp as (Hw & Hh & Hts & Hov & Hrw & Hrh).
  destruct (span_covers (TileSize o) (Overlap o) (Width o) x) as [Hc Hsx]; try lia.
  destruct (span_covers (TileSize o) (Overlap o) (Height o) y) as [Hr Hsy]; try lia.
  split; [exact Hc|]. split; [exact Hr|].
  unfold inside.
  destruct (ComputeTileRect_spans o (x / TileSize o) (y / TileSize o)
              (cdiv (Width o) (TileSize o)) (cdiv (Height o) (TileSize o))) as [HX HY].
  cbv zeta in HX, HY.
  split.
  - replace (image.X (image.Min _)) with (fst (tile_span (TileSize o) (Overlap o) (Width o) (x / TileSize o) (cdiv (Width o) (TileSize o))))
      by (rewrite <- HX; reflexivity).
    replace (image.X (image.Max _)) with (snd (tile_span (TileSize o) (Overlap o) (Width o) (x / TileSize o) (cdiv (Width o) (TileSize o))))
      by (rewrite <- HX; reflexivity).
    exact Hsx.
  - replace (image.Y (image.Min _)) with (fst (tile_span (TileSize o) (Overlap o) (Height o) (y / TileSize o) (cdiv (Height o) (TileSize o))))
      by (rewrite <- HY; reflexivity).
    replace (image.Y (image.Max _)) with (snd (tile_span (TileSize o) (Overlap o) (Height o) (y / TileSize o) (cdiv (Height o) (TileSize o))))
      by (rewrite <- HY; reflexivity).
    exact Hsy.
Qed.

(** [tiles_cover_level] at a concrete input, with its hypotheses checked there. *)
Lemma tiles_cover_level_witness :
  let o := config JPEG accepting 1 256 300 200 in
  0 <= 1 < 2 /\ 0 <= 0 < 1
  /\ inside (ComputeTileRect (P := go64) o 1 0 2 1) 299 199.
Proof.
  apply (tiles_cover_level (P := go64) 9 (config JPEG accepting 1 256 300 200) 299 199);
    vm_compute; repeat split; intros; discriminate.
Defined.

Section Cores.

Context {P : Platform}.

Lemma cdiv_ge_2 (extent ts : Z) : 0 < ts -> ts < extent -> 2 <= cdiv extent ts.
Proof.
  intros Hts H. pose proof (cdiv_spec extent ts Hts) as Hc.
  destruct (Z_le_gt_dec 2 (cdiv extent ts)); [assumption|].
  assert (cdiv extent ts * ts <= 1 * ts) by (apply Z.mul_le_mono_nonneg_r; lia).
  lia.
Qed.

(** Along an axis of at least two cells, [x] is in the core of cell [i]
    exactly when [i] is [x / ts]. *)
Lemma core_span_owner (ts ov extent x i : Z) :
  0 < ts -> 0 <= ov <= ts -> 0 <= x < extent ->
  extent + 2 * ts <= 2 ^ (uint_bits - 1) ->
  let n := cdiv extent ts in
  2 <= n -> 0 <= i < n ->
  (fst (core_span ts ov extent i n) <= x < snd (core_span ts ov extent i n)
   <-> i = x / ts).
Proof.
  intros Hts Hov Hx Hroom n Hn Hi.
  pose proof (core_span_plain ts ov extent i Hts Hov ltac:(lia) Hroom) as Hcs.
  cbv zeta in Hcs. fold n in Hcs. rewrite (Hcs Hn Hi). cbn [fst snd].
  destruct (cdiv_cell extent ts x Hts Hx) as (Hq & Hcell & Hc). fold n in Hq, Hc.
  split.
  - intros [Hlo Hhi].
    assert (x < (i + 1) * ts).
    { destruct (Z.eqb_spec i (n - 1)) as [E | NE]; [|assumption].
      rewrite E. lia. }
    apply Z.div_unique with (x - i * ts); [left|]; lia.
  - intros ->. split; [lia|].
    destruct (Z.eqb_spec (x / ts) (n - 1)); lia.
Qed.

End Cores.

(** X6: on a level of at least two columns and two rows the cores leave no
    gap and cover no pixel twice: the pixel [(x, y)] of the canvas is in
    the core of cell [(col, row)] exactly when [col] is [x / tileSize] and
    [row] is [y / tileSize]. *)
Theorem cores_partition_level {P : Platform} (l : Z) (o : Option)
  (x y col row : Z) :
  plain_level o -> TileSize o < Width o -> TileSize o < Height o ->
  0 <= x < Width o -> 0 <= y < Height o ->
  let cols := fst (GetLevelGrids l (Width o) (Height o) (TileSize o)) in
  let rows := snd (GetLevelGrids l (Width o) (Height o) (TileSize o)) in
  0 <= col < cols -> 0 <= row < rows ->
  (inside (core_rect o col row cols rows) x y
   <-> col = x / TileSize o /\ row = y / TileSize o).
Proof.
  intros Hp Hw2 Hh2 Hx Hy. rewrite (plain_level_grid l o Hp). cbn [fst snd]. cbv zeta.
  intros Hcol Hrow.
  destruct Hp as (Hw & Hh & Hts & Hov & Hrw & Hrh).
  assert (Hts0 : 0 < TileSize o) by lia.
  pose proof (core_span_owner (TileSize o) (Overlap o) (Width o) x col
                Hts0 Hov Hx Hrw (cdiv_ge_2 _ _ Hts0 Hw2) Hcol) as HX.
  pose proof (core_span_owner (TileSize o) (Overlap o) (Height o) y row
                Hts0 Hov Hy Hrh (cdiv_ge_2 _ _ Hts0 Hh2) Hrow) as HY.
  destruct (core_rect_spans o col row (cdiv (Width o) (TileSize o))
              (cdiv (Height o) (TileSize o))) as [EX EY].
  cbv zeta in EX, EY. unfold inside.
  rewrite <- EX in HX. rewrite <- EY in HY. cbn [fst snd] in HX, HY.
  rewrite HX, HY. reflexivity.
Qed.

(** [cores_partition_level] at a concrete input, with its hypotheses checked there. *)
Lemma cores_partition_level_witness :
  let o := config JPEG accepting 1 256 600 700 in
  inside (core_rect (P := go64) o 2 1 3 3) 599 300
  <-> 2 = 599 / TileSize o /\ 1 = 300 / TileSize o.
Proof.
  apply (cores_partition_level (P := go64) 10 (config JPEG accepting 1 256 600 700)
           599 300 2 1);
    vm_compute; repeat split; intros; discriminate.
Defined.

(** X7: on a level of at least two columns and two rows the areas of the
    cores add up to the area of the canvas, [width * height]. *)
Theorem core_area_is_canvas {P : Platform} (o : Option) :
  plain_level o -> TileSize o < Width o -> TileSize o < Height o ->
  core_area o = Width o * Height o.
Proof.
  intros Hp Hw2 Hh2. unfold core_area.
  rewrite (plain_level_grid 0 o Hp).
  destruct Hp as (Hw & Hh & Hts & Hov & Hrw & Hrh).
  set (cols := cdiv (Width o) (TileSize o)). set (rows := cdiv (Height o) (TileSize o)).
  set (fx := fun col => snd (core_span (TileSize o) (Overlap o) (Width o) col cols)
                        - fst (core_span (TileSize o) (Overlap o) (Width o) col cols)).
  set (fy := fun row => snd (core_span (TileSize o) (Overlap o) (Height o) row rows)
                        - fst (core_span (TileSize o) (Overlap o) (Height o) row rows)).
  assert (E : forall col row, area (core_rect o col row cols rows) = fx col * fy row).
  { intros col row. destruct (core_rect_spans o col row cols rows) as [EX EY].
    cbv zeta in EX, EY. unfold area, image.Dx, image.Dy, fx, fy.
    rewrite <- EX, <- EY. reflexivity. }
  rewrite (flat_map_ext _ (fun col => map (fun row => fx col * fy row) (upto rows)))
    by (intros col; apply map_ext; intros row; apply E).
  rewrite sumZ_product. unfold fx, fy, cols, rows.
  destruct Hw as [Hw _]. destruct Hh as [Hh _].
  rewrite !core_lengths by (try apply cdiv_ge_2; lia).
  reflexivity.
Qed.

(** [core_area_is_canvas] at a concrete input, with its hypotheses checked there. *)
Lemma core_area_is_canvas_witness :
  core_area (P := go64) (config JPEG accepting 1 256 600 700) = 600 * 700.
Proof.
  apply (core_area_is_canvas (P := go64) (config JPEG accepting 1 256 600 700));
    vm_compute; repeat split; intros; discriminate.
Defined.

(** * Paths *)

Section Paths.

Lemma dec_parse (n : Z) :
  exists d, NilZero.uint_of_string (dec n) = Some d /\ N.of_uint d = Z.to_N n.
Proof.
  unfold dec.
  destruct (NilZero.usu_gen (N.to_uint (Z.to_N n))) as [H | H].
  - exists (N.to_uint (Z.to_N n)). split; [exact H|]. apply DecimalN.Unsigned.of_to.
  - exists Decimal.zero. split; [exact H|].
    destruct (N.to_uint (Z.to_N n)) eqn:E;
      try (rewrite NilZero.usu in H by discriminate; injection H as <-;
           rewrite <- E; apply DecimalN.Unsigned.of_to).
    rewrite <- (DecimalN.Unsigned.of_to (Z.to_N n)), E. reflexivity.
Qed.

Lemma dec_digits_only (n : Z) : digits_only (dec n).
Proof.
  destruct (dec_parse n) as (d & H & _). exists d.
  destruct (dec n); [discriminate H | exact H].
Qed.

Lemma dec_inj (a b : Z) : 0 <= a -> 0 <= b -> dec a = dec b -> a = b.
Proof.
  intros Ha Hb E.
  destruct (dec_parse a) as (da & Pa & Na). destruct (dec_parse b) as (db & Pb & Nb).
  rewrite E, Pb in Pa. injection Pa as <-.
  rewrite Nb in Na. apply Z2N.inj in Na; lia.
Qed.

Lemma digits_only_tail (a : ascii) (s : string) :
  digits_only (String a s) -> digits_only s /\ ~ separator a.
Proof.
  intros [d H]. simpl in H.
  destruct (NilEmpty.uint_of_string s) as [d'|] eqn:E; [|discriminate H].
  split; [exists d'; exact E|].
  intros Hsep. rewrite (Hsep d') in H. discriminate H.
Qed.

(** Two digit strings followed by the same separator: the strings are
    equal, and so are the rests. *)
Lemma split_at_separator (c : ascii) (s1 s2 r1 r2 : string) :
  separator c -> digits_only s1 -> digits_only s2 ->
  (s1 ++ String c r1)%string = (s2 ++ String c r2)%string ->
  s1 = s2 /\ r1 = r2.
Proof.
  intros Hc. revert s2.
  induction s1 as [|a s1 IH]; intros s2 H1 H2 E; destruct s2 as [|b s2].
  - simpl in E. injection E as ->. split; reflexivity.
  - simpl in E. injection E as <- _.
    apply digits_only_tail in H2. destruct H2 as [_ H2]. contradiction.
  - simpl in E. injection E as -> _.
    apply digits_only_tail in H1. destruct H1 as [_ H1]. contradiction.
  - simpl in E. injection E as -> E.
    apply digits_only_tail in H1. apply digits_only_tail in H2.
    destruct (IH s2 (proj1 H1) (proj1 H2) E) as [-> ->]. split; reflexivity.
Qed.

Lemma append_cancel_l (d a b : string) : (d ++ a)%string = (d ++ b)%string -> a = b.
Proof.
  induction d as [|c d IH]; simpl; intros E; [exact E|].
  injection E as E. apply IH. exact E.
Qed.

Lemma separator_slash : separator "/".
Proof. intros d. reflexivity. Qed.

Lemma separator_underscore : separator "_".
Proof. intros d. reflexivity. Qed.

Lemma separator_dot : separator ".".
Proof. intros d. reflexivity. Qed.

Lemma tile_path_inj (dirPath : string) (l c r l' c' r' : Z) (f f' : ImageFormat) :
  0 <= l -> 0 <= c -> 0 <= r -> 0 <= l' -> 0 <= c' -> 0 <= r' ->
  tile_path dirPath l c r f = tile_path dirPath l' c' r' f' ->
  l = l' /\ c = c' /\ r = r' /\ f = f'.
Proof.
  intros Hl Hc Hr Hl' Hc' Hr' E. unfold tile_path in E.
  apply append_cancel_l in E. simpl in E. injection E as E.
  apply split_at_separator in E;
    [|apply separator_slash | apply dec_digits_only | apply dec_digits_only].
  destruct E as [El E].
  apply split_at_separator in E;
    [|apply separator_underscore | apply dec_digits_only | apply dec_digits_only].
  destruct E as [Ec E].
  apply split_at_separator in E;
    [|apply separator_dot | apply dec_digits_only | apply dec_digits_only].
  destruct E as [Er Ef].
  repeat split; try apply dec_inj; assumption.
Qed.

Context {P : Platform} {I : Imaging}.

Lemma tasks_at_cells (top : Z) (o : Option) (m : NRGBA) (n : nat) (t : Task) :
  In t (tasks_at top o m n) -> 0 <= t_col t /\ 0 <= t_row t.
Proof.
  unfold tasks_at. intros H.
  destruct (descend n o m) as [o1 m1].
  destruct (GetLevelGrids _ _ _ _) as [cols rows].
  apply level_tasks_fields in H. lia.
Qed.

End Paths.

(** X8: the path of a tile names the tile.  With one directory, two paths
    [dir/level/col_row.format] are equal only for the same level, column,
    row and format. *)
Theorem tile_path_injective (dirPath : string) (l c r l' c' r' : Z) (f f' : ImageFormat) :
  0 <= l -> 0 <= c -> 0 <= r -> 0 <= l' -> 0 <= c' -> 0 <= r' ->
  tile_path dirPath l c r f = tile_path dirPath l' c' r' f' ->
  l = l' /\ c = c' /\ r = r' /\ f = f'.
Proof. apply tile_path_inj. Qed.

(** [tile_path_injective] at a concrete input, with its hypotheses checked there. *)
Lemma tile_path_injective_witness :
  9 = 9 /\ 1 = 1 /\ 0 = 0 /\ PNG = PNG.
Proof.
  apply (tile_path_injective "out" 9 1 0 9 1 0 PNG PNG);
    vm_compute; repeat split; intros; discriminate.
Defined.

(** X9: no two tiles of a run share a file.  Two tasks [Generate] has
    started whose paths are equal are at the same level, column and row. *)
Theorem Generate_paths_distinct {P : Platform} {I : Imaging}
  (fuel : nat) (m : NRGBA) (o : Option) (out : Outcome) (t1 t2 : Task) :
  Generate fuel m o = Some (Returns out) ->
  In t1 (started out) -> In t2 (started out) ->
  tile_path (t_dirPath t1) (t_level t1) (t_col t1) (t_row t1) (t_format t1) =
    tile_path (t_dirPath t2) (t_level t2) (t_col t2) (t_row t2) (t_format t2) ->
  t_level t1 = t_level t2 /\ t_col t1 = t_col t2 /\ t_row t1 = t_row t2.
Proof.
  intros H H1 H2 E.
  destruct (Generate_Some fuel m o out H) as (_ & _ & _ & Hs).
  pose proof (GetMaxLevel_range (Width o) (Height o)) as Hr.
  set (top := GetMaxLevel (Width o) (Height o)) in *.
  rewrite Hs in H1, H2.
  apply in_flat_map in H1. destruct H1 as (j1 & Hj1 & H1).
  apply in_flat_map in H2. destruct H2 as (j2 & Hj2 & H2).
  apply in_seq in Hj1. apply in_seq in Hj2.
  destruct (tasks_at_fields top o m j1 t1 H1) as (D1 & _ & F1 & L1).
  destruct (tasks_at_fields top o m j2 t2 H2) as (D2 & _ & F2 & L2).
  destruct (tasks_at_cells top o m j1 t1 H1) as [C1 R1].
  destruct (tasks_at_cells top o m j2 t2 H2) as [C2 R2].
  rewrite D1, D2 in E.
  apply tile_path_inj in E; try lia.
Qed.

(** [Generate_paths_distinct] at a concrete input, with its hypotheses checked there. *)
Lemma Generate_paths_distinct_witness :
  let o := config PNG accepting 0 1 2 2 in
  let t1 :=
    {| t_dirPath := "out"; t_saver := accepting; t_level := 1; t_col := 1;
       t_row := 0; t_format := PNG; t_m := picture 1 1 |} in
  t_level t1 = t_level t1 /\ t_col t1 = t_col t1 /\ t_row t1 = t_row t1.
Proof.
  apply (Generate_paths_distinct (P := go64) (I := bounds_only) 2 (picture 2 2)
           (config PNG accepting 0 1 2 2)
           {| returned := None; opt_after := config PNG accepting 0 1 1 1;
              added := 5;
              started :=
                flat_map
                  (tasks_at (P := go64) (I := bounds_only) 1
                     (config PNG accepting 0 1 2 2) (picture 2 2))
                  (seq 0 2);
              unfinished := O |});
    vm_compute; try reflexivity; auto.
Defined.

(** * Tasks, the barrier and [SaveTile] *)

Section Barrier.

Context {P : Platform} {I : Imaging}.



End Barrier.



(** X11: [SaveTile] hands a tile to the saver at most once and only under
    the tile's path; it returns nil only when the saver has taken the tile
    and returned nil; and when it has handed nothing over (the encoding
    failed) it returns an error. *)
Theorem SaveTile_contract {P : Platform} {I : Imaging}
  (dirPath : string) (saver : Saver) (l col row : Z) (format : ImageFormat)
  (m : NRGBA) :
  let calls := fst (SaveTile dirPath saver l col row format m) in
  let err := snd (SaveTile dirPath saver l col row format m) in
  let path := tile_path dirPath l col row format in
  (List.length calls <= 1)%nat
  /\ (forall p b, In (p, b) calls -> p = path)
  /\ (err = None -> exists b, calls = [(path, b)] /\ SaveFile saver path b = None)
  /\ (calls = [] -> err <> None)
  /\ (forall p b, In (p, b) calls -> err = SaveFile saver p b).
Proof.
  unfold SaveTile.
  destruct (if String.eqb format JPEG then jpeg_Encode m
            else if String.eqb format PNG then png_Encode m else ([], None))
    as [buffer [e|]].
  - cbn. repeat split; try (intros; contradiction); try discriminate; auto.
  - destruct (SaveFile saver (tile_path dirPath l col row format) buffer) eqn:E; cbn.
    + repeat split; try discriminate; auto.
      * intros p b [H | []]. injection H as <- _. reflexivity.
      * intros p b [H | []]. injection H as <- <-. symmetry. exact E.
    + repeat split; try discriminate; auto.
      * intros p b [H | []]. injection H as <- _. reflexivity.
      * intros _. exists buffer. split; [reflexivity | exact E].
      * intros p b [H | []]. injection H as <- <-. symmetry. exact E.
Qed.

(** X12: a tile rectangle starts inside the canvas and is not empty.  On a
    level the arithmetic does not wrap on, the rectangle of a cell of the
    grid has a non-negative left and top edge, is between one pixel and
    [tileSize + 2 * overlap] wide and high, and ends at the width (height)
    of the canvas when the cell is in the last column (row) and that is
    not the first. *)
Theorem tile_rect_shape {P : Platform} (l : Z) (o : Option) (col row : Z) :
  plain_level o ->
  let cols := fst (GetLevelGrids l (Width o) (Height o) (TileSize o)) in
  let rows := snd (GetLevelGrids l (Width o) (Height o) (TileSize o)) in
  0 <= col < cols -> 0 <= row < rows ->
  let r := ComputeTileRect o col row cols rows in
  0 <= image.X (image.Min r) /\ 0 <= image.Y (image.Min r)
  /\ 0 < image.Dx r <= TileSize o + 2 * Overlap o
  /\ 0 < image.Dy r <= TileSize o + 2 * Overlap o
  /\ (0 < col -> col = cols - 1 -> image.X (image.Max r) = Width o)
  /\ (0 < row -> row = rows - 1 -> image.Y (image.Max r) = Height o).
Proof.
  intros Hp. rewrite (plain_level_grid l o Hp). cbn [fst snd]. cbv zeta.
  intros Hcol Hrow.
  destruct Hp as ([Hw Hwm] & [Hh Hhm] & Hts & Hov & Hrw & Hrh).
  assert (Hspan : forall extent i,
             0 < extent -> extent + 2 * TileSize o <= 2 ^ (uint_bits - 1) ->
             0 <= i < cdiv extent (TileSize o) ->
             let s := tile_span (TileSize o) (Overlap o) extent i (cdiv extent (TileSize o)) in
             0 <= fst s /\ 0 < snd s - fst s <= TileSize o + 2 * Overlap o
             /\ (0 < i -> i = cdiv extent (TileSize o) - 1 -> snd s = extent)).
  { intros extent i Hext Hroom Hi.
    pose proof (cdiv_spec extent (TileSize o) ltac:(lia)) as Hc.
    cbv zeta. rewrite tile_span_plain by lia. cbn [fst snd].
    assert (0 <= i * TileSize o) by (apply Z.mul_nonneg_nonneg; lia).
    destruct (Z.eqb_spec i 0) as [-> | NE].
    - lia.
    - assert (TileSize o <= i * TileSize o) by nia.
      destruct (Z.eqb_spec i (cdiv extent (TileSize o) - 1)) as [E | NE'].
      + rewrite <- E in Hc. lia.
      + lia. }
  destruct (ComputeTileRect_spans o col row (cdiv (Width o) (TileSize o))
              (cdiv (Height o) (TileSize o))) as [HX HY].
  cbv zeta in HX, HY.
  pose proof (Hspan (Width o) col ltac:(lia) Hrw Hcol) as SX.
  pose proof (Hspan (Height o) row ltac:(lia) Hrh Hrow) as SY.
  cbv zeta in SX, SY. rewrite <- HX in SX. rewrite <- HY in SY.
  cbn [fst snd] in SX, SY. unfold image.Dx, image.Dy.
  destruct SX as (X1 & X2 & X3). destruct SY as (Y1 & Y2 & Y3).
  repeat split; try lia; assumption.
Qed.

(** [tile_rect_shape] at a concrete input, with its hypotheses checked there. *)
Lemma tile_rect_shape_witness :
  let o := config JPEG accepting 1 256 300 200 in
  let r := ComputeTileRect (P := go64) o 1 0 2 1 in
  0 <= image.X (image.Min r) /\ 0 <= image.Y (image.Min r)
  /\ 0 < image.Dx r <= TileSize o + 2 * Overlap o
  /\ 0 < image.Dy r <= TileSize o + 2 * Overlap o
  /\ (0 < 1 -> 1 = 2 - 1 -> image.X (image.Max r) = Width o)
  /\ (0 < 0 -> 0 = 1 - 1 -> image.Y (image.Max r) = Height o).
Proof.
  apply (tile_rect_shape (P := go64) 9 (config JPEG accepting 1 256 300 200) 1 0);
    vm_compute; repeat split; intros; discriminate.
Defined.

(** X13: where [uint] has 32 bits the grid is the ceiling for every
    positive width, height and tile size: a [float64] holds every [uint]
    of such a platform exactly. *)
Theorem GetLevelGrids_ceil_32 {P : Platform} (level width height tileSize : Z) :
  uint_bits = 32 ->
  0 < width < modulus -> 0 < height < modulus -> 0 < tileSize < modulus ->
  GetLevelGrids level width height tileSize =
    (cdiv width tileSize, cdiv height tileSize).
Proof.
  intros H32 Hw Hh Ht.
  assert (Hm : modulus = 2 ^ 32) by (unfold modulus; rewrite H32; reflexivity).
  rewrite Hm in Hw, Hh, Ht.
  apply GetLevelGrids_cdiv; unfold exact_uint; rewrite ?Hm; lia.
Qed.

(** [GetLevelGrids_ceil_32] at a concrete input, with its hypotheses checked there. *)
Lemma GetLevelGrids_ceil_32_witness :
  GetLevelGrids (P := go32) 31 (2 ^ 32 - 1) 3 2 = (cdiv (2 ^ 32 - 1) 2, cdiv 3 2).
Proof.
  apply (GetLevelGrids_ceil_32 (P := go32) 31 (2 ^ 32 - 1) 3 2);
    vm_compute; repeat split; intros; discriminate.
Defined.

(** * The wait group at its limits *)

(** X14: tile size 0 is not refused.  On the 64-bit platform the grid of
    a 1 x 1 picture is then [2^63] by [2^63], the product wraps to 0 and
    [wg.Add(0)] leaves the counter at zero; the first goroutine to come to
    its [wg.Done()] makes it negative and panics. *)
Theorem Generate_panics_on_tile_size_zero :
  let o := config PNG accepting 0 0 1 1 in
  GetMaxLevel (P := go64) (Width o) (Height o) = 0
  /\ GetLevelGrids (P := go64) 0 (Width o) (Height o) (TileSize o) = (2 ^ 63, 2 ^ 63)
  /\ int (P := go64) (umul (P := go64) (2 ^ 63) (2 ^ 63)) = 0
  /\ Generate (P := go64) (I := bounds_only) 1 (picture 1 1) o
     = Some (Panics "sync: negative WaitGroup counter").
Proof.
  cbv zeta.
  assert (Hl : GetMaxLevel (P := go64) 1 1 = 0) by (vm_compute; reflexivity).
  assert (Hg : GetLevelGrids (P := go64) 0 1 1 0 = (2 ^ 63, 2 ^ 63))
    by (vm_compute; reflexivity).
  assert (Hi : int (P := go64) (umul (P := go64) (2 ^ 63) (2 ^ 63)) = 0)
    by (vm_compute; reflexivity).
  split; [exact Hl|]. split; [exact Hg|]. split; [exact Hi|].
  unfold Generate.
  change (Width (config PNG accepting 0 0 1 1)) with 1.
  change (Height (config PNG accepting 0 0 1 1)) with 1.
  rewrite Hl. rewrite walk_S. cbn [level Z.leb Z.compare].
  unfold level_body. cbn [opt level wg running tasks raised tm].
  change (Width (config PNG accepting 0 0 1 1)) with 1.
  change (Height (config PNG accepting 0 0 1 1)) with 1.
  change (TileSize (config PNG accepting 0 0 1 1)) with 0.
  rewrite Hg, Hi.
  change (Nat.min (scheduler (Some 0) 0) 0) with O.
  cbn [wg_Done bind]. rewrite wg_Add_counter by lia. cbn [bind level Z.eqb].
  cbn [running wg Nat.sub Nat.add].
  rewrite level_tasks_length.
  set (r := (Z.to_nat (2 ^ 63) * Z.to_nat (2 ^ 63))%nat).
  change (scheduler (Platform := go64) None r) with r.
  rewrite Nat.min_id.
  rewrite wg_Done_negative; [reflexivity| |lia].
  unfold r. rewrite Nat2Z.inj_mul, !Z2Nat.id by lia. lia.
Qed.

(** X15: a grid too large for the counter stops the call at once.  When
    the size of the grid of the top level, as the [int] that [wg.Add] is
    called with, is negative in its low 32 bits, the first [wg.Add]
    panics: no task is started, whatever the image, the scheduler and the
    number of levels. *)
Theorem Generate_first_Add_panics {P : Platform} {I : Imaging}
  (fuel : nat) (m : NRGBA) (o : Option) :
  let top := GetMaxLevel (Width o) (Height o) in
  let grid := GetLevelGrids top (Width o) (Height o) (TileSize o) in
  int32 (int (umul (fst grid) (snd grid))) < 0 ->
  Generate (S fuel) m o = Some (Panics "sync: negative WaitGroup counter").
Proof.
  intros top grid Hneg.
  pose proof (GetMaxLevel_range (Width o) (Height o)) as Hr. fold top in Hr.
  unfold Generate. fold top. rewrite walk_S. cbn [level].
  replace (0 <=? top) with true by (symmetry; apply Z.leb_le; lia).
  unfold level_body. cbn [opt level wg running tasks raised tm].
  fold grid. destruct grid as [cols rows]. cbn [fst snd] in Hneg.
  rewrite Nat.min_0_r. cbn [wg_Done bind].
  unfold wg_Add. cbn [Z.add].
  replace (int32 (int (umul cols rows)) <? 0) with true
    by (symmetry; apply Z.ltb_lt; exact Hneg).
  reflexivity.
Qed.

(** [Generate_first_Add_panics] at a concrete input, with its hypothesis
    checked there: a width of [2^32 + 1] and a height of [2^31] cut with
    tile size 1. *)
Lemma Generate_first_Add_panics_witness :
  Generate (P := go64) (I := bounds_only) 34 (picture (2 ^ 32 + 1) (2 ^ 31))
    (config PNG accepting 0 1 (2 ^ 32 + 1) (2 ^ 31))
  = Some (Panics "sync: negative WaitGroup counter").
Proof.
  apply (Generate_first_Add_panics (P := go64) (I := bounds_only) 33
           (picture (2 ^ 32 + 1) (2 ^ 31))
           (config PNG accepting 0 1 (2 ^ 32 + 1) (2 ^ 31))).
  vm_compute. reflexivity.
Defined.
